(** * Iterative self-calibration and coaddition of sky-scan segments

    A shallow embedding of [calibrate_zodi_time.py] (classes [Coadder] and
    [IterativeFitter]) and of [SplineFitter._clean_data] from
    [orbit_calibration_2_fullsky_map/spline_fit_calibration.py].

    Numbers.  The program computes with numpy float64 arrays.  A float64 is
    modelled as an exact rational or one of the three non-finite values
    (+inf, -inf, nan); arithmetic on finite values is exact (no rounding, no
    overflow, no underflow, no signed zero) and the non-finite values follow
    the IEEE rules numpy applies, in particular [x / 0] is [inf], [-inf] or
    [nan] and never raises.  The outlier test of the spline stage needs a
    square root and is modelled over the real numbers.

    What this idealisation cannot see is stated where it matters: a property
    that equates two different computations, or that rests on a product
    being nonzero or on a comparison at its boundary, holds "in exact
    arithmetic" and is worded so.  Module [Binary64] holds the expressions
    for which rounding decides a claim, over IEEE 754 binary64 numbers.

    Exceptions.  Python exceptions (IndexError, ValueError on a shape
    mismatch, ZeroDivisionError of [np.average], ...) are values of the error
    monad [result].

    The minimizer.  [scipy.optimize.minimize] is not code of the repository;
    it is a parameter [minimize] of the development, and every call of it is
    recorded in a log, so that statements about what is passed to the fitter
    are statements about that log.

    Plots have no effect on the state.  What can make a plotting block
    raise is modelled: the array arithmetic that prepares a plot, and the
    refusal of [plt.plot] to pair an [x] and a [y] of different lengths;
    writing the image files is taken to succeed. *)

From Stdlib Require Import QArith Qcanon Qcabs Reals Lra Lia.
From Stdlib Require Floats.
From stdpp Require Import base decidable option numbers list sorting.

Set Default Proof Using "Type".

(** ** float64 as extended exact rationals *)

Module Float64.

Local Open Scope Qc_scope.
Local Open Scope list_scope.

Inductive float64 : Type :=
  | Fin (q : Qc)
  | PInf
  | NInf
  | NaN.

#[global] Instance float64_eq_dec : EqDecision float64.
Proof. solve_decision. Defined.

#[global] Instance float64_inhabited : Inhabited float64 := populate (Fin 0).

Definition of_nat (n : nat) : float64 := Fin (Q2Qc (inject_Z (Z.of_nat n))).

Definition zero : float64 := Fin 0.
Definition one : float64 := Fin 1.

Definition finite (x : float64) : Prop :=
  match x with Fin _ => True | _ => False end.

#[global] Instance finite_dec x : Decision (finite x).
Proof. destruct x; simpl; apply _. Defined.

Definition fneg (x : float64) : float64 :=
  match x with
  | Fin a => Fin (- a)
  | PInf => NInf
  | NInf => PInf
  | NaN => NaN
  end.

Definition fadd (x y : float64) : float64 :=
  match x, y with
  | NaN, _ | _, NaN => NaN
  | Fin a, Fin b => Fin (a + b)
  | PInf, NInf | NInf, PInf => NaN
  | PInf, _ | _, PInf => PInf
  | NInf, _ | _, NInf => NInf
  end.

Definition fsub (x y : float64) : float64 := fadd x (fneg y).

(** The sign of a finite factor decides what an infinity becomes;
    [0 * inf] is [nan]. *)
Definition scale_inf (pos : bool) (a : Qc) : float64 :=
  if decide (a = 0) then NaN
  else if decide (0 < a) then (if pos then PInf else NInf)
  else (if pos then NInf else PInf).

Definition fmul (x y : float64) : float64 :=
  match x, y with
  | NaN, _ | _, NaN => NaN
  | Fin a, Fin b => Fin (a * b)
  | Fin a, PInf | PInf, Fin a => scale_inf true a
  | Fin a, NInf | NInf, Fin a => scale_inf false a
  | PInf, PInf | NInf, NInf => PInf
  | PInf, NInf | NInf, PInf => NInf
  end.

(** True division as numpy does it: a zero divisor gives a non-finite
    value (and a RuntimeWarning), not an exception. *)
Definition fdiv (x y : float64) : float64 :=
  match x, y with
  | NaN, _ | _, NaN => NaN
  | Fin a, Fin b =>
      if decide (b = 0) then scale_inf true a else Fin (a / b)
  | Fin _, (PInf | NInf) => Fin 0
  | PInf, Fin b => if decide (b < 0) then NInf else PInf
  | NInf, Fin b => if decide (b < 0) then PInf else NInf
  | (PInf | NInf), (PInf | NInf) => NaN
  end.

Definition fabs (x : float64) : float64 :=
  match x with
  | Fin a => Fin (Qcabs a)
  | PInf | NInf => PInf
  | NaN => NaN
  end.

(** [np.square x] and [x ** 2]. *)
Definition fsquare (x : float64) : float64 := fmul x x.

(** [x < y]; every comparison with nan is false. *)
Definition flt (x y : float64) : bool :=
  match x, y with
  | NaN, _ | _, NaN => false
  | Fin a, Fin b => bool_decide (a < b)
  | NInf, (Fin _ | PInf) => true
  | Fin _, PInf => true
  | _, _ => false
  end.

(** [x != y]; nan differs from everything, itself included. *)
Definition fne (x y : float64) : bool :=
  match x, y with
  | NaN, _ | _, NaN => true
  | _, _ => bool_decide (x <> y)
  end.

(** [x == y]. *)
Definition feq (x y : float64) : bool := negb (fne x y).

End Float64.
Export Float64.

(** ** Python exceptions as an error monad *)

Inductive exn : Set :=
  | IndexError
  | ValueError
  | ZeroDivisionError
  | TypeError
  | UnboundLocalError
  | AttributeError.

#[global] Instance exn_eq_dec : EqDecision exn.
Proof. solve_decision. Defined.

Inductive result (A : Type) : Type :=
  | Ok (a : A)
  | Raise (e : exn).
Arguments Ok {A} a.
Arguments Raise {A} e.

#[global] Instance result_eq_dec `{EqDecision A} : EqDecision (result A).
Proof. solve_decision. Defined.

#[global] Instance result_ret : MRet result := fun _ a => Ok a.
#[global] Instance result_bind : MBind result := fun _ _ f m =>
  match m with
  | Ok a => f a
  | Raise e => Raise e
  end.

Definition of_option {A} (e : exn) (o : option A) : result A :=
  match o with
  | Some a => Ok a
  | None => Raise e
  end.

(** [mapM] for [result]: the first exception wins. *)
Fixpoint traverse {A B} (f : A -> result B) (l : list A) : result (list B) :=
  match l with
  | [] => Ok []
  | a :: l' => b ← f a; bs ← traverse f l'; Ok (b :: bs)
  end.

(** ** The numpy operations the program uses *)

Module Np.

(** [np.zeros(n)]. *)
Definition zeros (n : nat) : list float64 := replicate n zero.

(** An elementwise binary operation on two one-dimensional arrays, with
    numpy's broadcasting: equal shapes pair up, a length-one array is
    stretched, anything else is a ValueError. *)
Definition broadcast2 {A B C} (f : A -> B -> C) (xs : list A) (ys : list B)
    : result (list C) :=
  if decide (length xs = length ys) then Ok (zip_with f xs ys)
  else match xs, ys with
       | [x], _ => Ok (map (f x) ys)
       | _, [y] => Ok (map (fun x => f x y) xs)
       | _, _ => Raise ValueError
       end.

(** [np.sum a]. *)
Definition sum (a : list float64) : float64 := foldr fadd zero a.

(** [np.mean a]; the mean of the empty array is nan. *)
Definition mean (a : list float64) : float64 :=
  fdiv (sum a) (of_nat (length a)).

(** [np.divide(x, y, where=(c != 0.0), out=np.zeros_like(..))] at one
    position: the quotient where the condition holds, the zero of [out]
    elsewhere. *)
Definition divide_where (x y c : float64) : float64 :=
  if fne c zero then fdiv x y else zero.

(** [a[idx]] for an integer index array: an index past the end is an
    IndexError. *)
Definition gather (a : list float64) (idx : list nat) : result (list float64) :=
  traverse (fun i => of_option IndexError (a !! i)) idx.

(** [a[idx] = vals], position by position: with a repeated index the
    last assignment wins. *)
Fixpoint put (a : list float64) (idx : list nat) (vals : list float64)
    : list float64 :=
  match idx, vals with
  | i :: idx', v :: vals' => put (<[i := v]> a) idx' vals'
  | _, _ => a
  end.

(** [a[idx] += vals] is [a[idx] = a[idx] + vals]: the old values are
    gathered first, so a repeated index receives one addend only.  [idx]
    was built with [np.array] from a Python list: from the empty list it is
    a float64 array, which numpy refuses as an index. *)
Definition iadd_at (a : list float64) (idx : list nat) (vals : list float64)
    : result (list float64) :=
  if decide (idx = []) then Raise IndexError
  else
    old ← gather a idx;
    new ← broadcast2 fadd old vals;
    if decide (length new = length idx) then Ok (put a idx new)
    else Raise ValueError.

(** [a[lo:hi]] for [0 <= lo]: slices clip silently. *)
Definition slice {A} (lo hi : nat) (a : list A) : list A :=
  take (hi - lo) (drop lo a).

(** [np.average(a, weights=w)]: differing shapes are a TypeError, weights
    that sum to exactly zero raise ZeroDivisionError (a nan sum does not
    compare equal to zero and goes through). *)
Definition average (a w : list float64) : result float64 :=
  if decide (length a = length w) then
    let scl := sum w in
    if feq scl zero then Raise ZeroDivisionError
    else Ok (fdiv (sum (zip_with fmul a w)) scl)
  else Raise TypeError.

End Np.

(** ** The log of minimizer calls *)

(** One call of [scipy.optimize.minimize] from [fit_to_zodi]: the [args]
    tuple handed to the cost function. *)
Record fit_call : Type := FitCall {
  fc_data : list float64;
  fc_zodi : list float64;
  fc_uncs : list float64;
}.

#[global] Instance fit_call_eq_dec : EqDecision fit_call.
Proof. solve_decision. Defined.

(** A computation that may call the minimizer: the calls made so far, in
    order, and the outcome. *)
Record fitM (A : Type) : Type := FitM {
  calls : list fit_call;
  outcome : result A;
}.
Arguments FitM {A} calls outcome.
Arguments calls {A} _.
Arguments outcome {A} _.

#[global] Instance fitM_eq_dec `{EqDecision A} : EqDecision (fitM A).
Proof. solve_decision. Defined.

#[global] Instance fitM_ret : MRet fitM := fun _ a => FitM [] (Ok a).
#[global] Instance fitM_bind : MBind fitM := fun _ _ f m =>
  match outcome m with
  | Ok a => FitM (calls m ++ calls (f a)) (outcome (f a))
  | Raise e => FitM (calls m) (Raise e)
  end.

(** A computation without minimizer calls. *)
Definition lift {A} (r : result A) : fitM A := FitM [] r.

(** The value of a computation that did not raise. *)
Definition value_of {A} (m : fitM A) : option A :=
  match outcome m with
  | Ok a => Some a
  | Raise _ => None
  end.

(** Record one call. *)
Definition tell (c : fit_call) : fitM unit := FitM [c] (Ok tt).

(** ** [class IterativeFitter] *)

Module IterativeFitter.

(** [chi_sq(params, x_data, y_data, sigma)]. *)
Definition chi_sq (params : float64 * float64)
    (x_data y_data sigma : list float64) : result float64 :=
  let model := map (fun y => fadd (fmul y params.1) params.2) y_data in
  residual ← Np.broadcast2 fsub x_data model;
  let weighted_residual :=
    map (fun r => fdiv r (fsquare (Np.mean sigma))) residual in
  Ok (if decide (0 < length x_data)%nat
      then fdiv (Np.sum (map fsquare weighted_residual))
                (of_nat (length x_data))
      else zero).

(** The cost function the minimizer sees for one call: [chi_sq] with the
    call's [args]. *)
Definition cost_of (c : fit_call) (params : float64 * float64) : float64 :=
  match chi_sq params (fc_data c) (fc_zodi c) (fc_uncs c) with
  | Ok v => v
  | Raise _ => NaN
  end.

(** The instance attributes set by [__init__]. *)
Record t : Type := Build {
  zodi_data : list float64;
  raw_data : list float64;
  raw_uncs : list float64;
}.

Section WithMinimizer.

(** [scipy.optimize.minimize(cost, x0, method='Nelder-Mead').x]: the
    minimizer is a function of the cost function and the start point. *)
Variable minimize :
  (float64 * float64 -> float64) -> float64 * float64 -> float64 * float64.

(** [fit_to_zodi].  The minimizer evaluates the cost at its start point
    before anything else, so an exception of [chi_sq] (which depends on the
    shapes only) leaves [minimize] at once; otherwise the cost is a number
    at every point. *)
Definition fit_to_zodi (orbit_data zodi_data orbit_uncs : list float64)
    : fitM (float64 * float64) :=
  let init_gain := one in
  let init_offset := zero in
  let call := FitCall orbit_data zodi_data orbit_uncs in
  _ ← tell call;
  _ ← lift (chi_sq (init_gain, init_offset) orbit_data zodi_data orbit_uncs);
  mret (minimize (cost_of call) (init_gain, init_offset)).

(** [adjust_data]. *)
Definition adjust_data (self : t) (gain offset : float64)
    (data : list float64) : result (list float64) :=
  residual ←
    Np.broadcast2 fsub
      (map (fun d => fdiv (fsub d offset) gain) data) (zodi_data self);
  Np.broadcast2 fsub data (map (fmul gain) residual).

(** The [while i < n] loop of [iterate_fit]; [last] holds [gain, offset]
    once they are bound. *)
Fixpoint fit_rounds (self : t) (n : nat) (data_to_fit uncs_to_fit : list float64)
    (last : option (float64 * float64)) : fitM (float64 * float64) :=
  match n with
  | O => lift (of_option UnboundLocalError last)
  | S n' =>
      p ← fit_to_zodi data_to_fit (zodi_data self) uncs_to_fit;
      data_to_fit' ← lift (adjust_data self p.1 p.2 data_to_fit);
      fit_rounds self n' data_to_fit' uncs_to_fit (Some p)
  end.

(** [iterate_fit(n)]. *)
Definition iterate_fit (self : t) (n : nat) : fitM (float64 * float64) :=
  let data_to_fit := raw_data self in
  let uncs_to_fit := raw_uncs self in
  if decide (0 < length data_to_fit)%nat
  then fit_rounds self n data_to_fit uncs_to_fit None
  else mret (zero, zero).

End WithMinimizer.

End IterativeFitter.

(** ** [class Coadder] *)

Module Coadder.

(** One row of an orbit's CSV file. *)
Record sample : Type := Sample {
  pixel_value : float64;
  pixel_unc : float64;
  hp_pixel_index : nat;
}.

Definition finite_sample (r : sample) : Prop :=
  finite (pixel_value r) /\ finite (pixel_unc r).

(** What the program reads from disk.  [FullSkyMap] (module
    [fullskymapping]) is not among the sources: all the program uses of a
    fresh one is the length of its [mapdata], [npix]. *)
Record world : Type := World {
  npix : nat;
  (** [HealpixMap(".../stripe_mask_G.fits").mapdata] *)
  stripe_mask : list float64;
  (** the boolean array [mask_galaxy] returns (it compares colatitudes
      from [healpy.pix2ang] with [0.4 pi] and [0.6 pi]) *)
  galaxy_mask : list bool;
  (** [pd.read_csv] of the file of an orbit *)
  orbit_csv : nat -> list sample;
  (** [WISEMap(zodi file of an orbit).mapdata] *)
  zodi_fits : nat -> list float64;
}.

(** The instance attributes of [Coadder]; a map is its [mapdata].
    [fsm_prev] does not exist before the first iteration ends. *)
Record t : Type := Build {
  iter : nat;
  numerator : list float64;
  denominator : list float64;
  gains : list float64;
  offsets : list float64;
  orbit_sizes : list float64;
  all_gains : list (list float64);
  all_offsets : list (list float64);
  fsm : list float64;
  unc_fsm : list float64;
  fsm_prev : option (list float64);
}.

#[global] Instance sample_eq_dec : EqDecision sample.
Proof. solve_decision. Defined.
#[global] Instance t_eq_dec : EqDecision t.
Proof. solve_decision. Defined.

Definition set_gains (v : list float64) (s : t) : t :=
  Build (iter s) (numerator s) (denominator s) v (offsets s) (orbit_sizes s)
        (all_gains s) (all_offsets s) (fsm s) (unc_fsm s) (fsm_prev s).
Definition set_offsets (v : list float64) (s : t) : t :=
  Build (iter s) (numerator s) (denominator s) (gains s) v (orbit_sizes s)
        (all_gains s) (all_offsets s) (fsm s) (unc_fsm s) (fsm_prev s).
Definition set_orbit_sizes (v : list float64) (s : t) : t :=
  Build (iter s) (numerator s) (denominator s) (gains s) (offsets s) v
        (all_gains s) (all_offsets s) (fsm s) (unc_fsm s) (fsm_prev s).
Definition set_buffers (num den : list float64) (s : t) : t :=
  Build (iter s) num den (gains s) (offsets s) (orbit_sizes s)
        (all_gains s) (all_offsets s) (fsm s) (unc_fsm s) (fsm_prev s).
Definition set_maps (m u : list float64) (s : t) : t :=
  Build (iter s) (numerator s) (denominator s) (gains s) (offsets s)
        (orbit_sizes s) (all_gains s) (all_offsets s) m u (fsm_prev s).

(** [range(n)] positions of [l] whose element satisfies [P]:
    [np.arange(len(l))[l]] for a boolean array. *)
Definition positions_where {A} (P : A -> bool) (l : list A) : list nat :=
  filter (fun i => Is_true (match l !! i with Some x => P x | None => false end))
         (seq 0 (length l)).

(** [a[i] = v] for a numpy array: past the end it is an IndexError. *)
Definition setitem (a : list float64) (i : nat) (v : float64)
    : result (list float64) :=
  if decide (i < length a)%nat then Ok (<[i := v]> a) else Raise IndexError.

(** [plt.plot(x, y, ...)] for one pair of one-dimensional arrays: of a
    plot only its shape check is modelled, an [x] and a [y] of different
    lengths being a ValueError. *)
Definition plot {A B} (x : list A) (y : list B) : result unit :=
  if decide (length x = length y) then Ok tt else Raise ValueError.

Section WithWorld.

Variable w : world.
Variable minimize :
  (float64 * float64 -> float64) -> float64 * float64 -> float64 * float64.

(** [self.moon_stripe_inds] and [self.galaxy_mask_inds], set in
    [__init__]. *)
Definition moon_stripe_inds : list nat :=
  positions_where (fun v => fne v zero) (stripe_mask w).
Definition galaxy_mask_inds : list nat :=
  positions_where (fun b : bool => b) (galaxy_mask w).

(** [p in self.moon_stripe_inds or p in self.galaxy_mask_inds]. *)
Definition excluded (p : nat) : Prop :=
  p ∈ moon_stripe_inds \/ p ∈ galaxy_mask_inds.

#[global] Instance excluded_dec p : Decision (excluded p).
Proof. unfold excluded. apply _. Defined.

(** The list comprehension [entries_to_mask] shared by the three methods
    that read an orbit. *)
Definition entries_to_mask (pixel_inds : list nat) : list nat :=
  filter (fun i => Is_true (match pixel_inds !! i with
                            | Some p => bool_decide (excluded p)
                            | None => false
                            end))
         (seq 0 (length pixel_inds)).

(** [[col[i] for i in range(len(col)) if i not in entries_to_mask]]. *)
Definition drop_entries {A} (entries : list nat) (col : list A) : list A :=
  omap (fun i => if decide (i ∈ entries) then None else col !! i)
       (seq 0 (length col)).

(** [load_orbit_data]: the three columns of the CSV file. *)
Definition load_orbit_data (orbit_num : nat)
    : list float64 * list float64 * list nat :=
  let all_orbit_data := orbit_csv w orbit_num in
  (map pixel_value all_orbit_data,
   map pixel_unc all_orbit_data,
   map hp_pixel_index all_orbit_data).

(** [load_zodi_orbit]: the template values at the pixels of the orbit, in
    pixel order (the boolean array [pixels] is used as the index).  The two
    mismatch messages are printed only. *)
Definition load_zodi_orbit (orbit_num : nat) (pixel_inds : list nat)
    : result (list float64) :=
  let mapdata := zodi_fits w orbit_num in
  if decide (Forall (fun p => p < length mapdata)%nat pixel_inds) then
    let pixels :=
      Np.put (Np.zeros (length mapdata)) pixel_inds
             (replicate (length pixel_inds) one) in
    Ok (omap (fun i => match pixels !! i with
                       | Some v => if fne v zero then mapdata !! i else None
                       | None => None
                       end)
             (seq 0 (length mapdata)))
  else Raise IndexError.

(** The columns of an orbit after masking, as [fit_initial_orbit],
    [fit_adjusted_orbit] and [add_file] each compute them. *)
Definition orbit_data_masked (orbit_num : nat) : list float64 :=
  let '(orbit_data, _, pixel_inds) := load_orbit_data orbit_num in
  drop_entries (entries_to_mask pixel_inds) orbit_data.
Definition orbit_uncs_masked (orbit_num : nat) : list float64 :=
  let '(_, orbit_uncs, pixel_inds) := load_orbit_data orbit_num in
  drop_entries (entries_to_mask pixel_inds) orbit_uncs.
Definition pixel_inds_masked (orbit_num : nat) : list nat :=
  let '(_, _, pixel_inds) := load_orbit_data orbit_num in
  drop_entries (entries_to_mask pixel_inds) pixel_inds.
Definition zodi_data_masked (orbit_num : nat) : result (list float64) :=
  let '(_, _, pixel_inds) := load_orbit_data orbit_num in
  zodi_data ← load_zodi_orbit orbit_num pixel_inds;
  Ok (drop_entries (entries_to_mask pixel_inds) zodi_data).

(** The rows of an orbit whose pixel is not excluded: the samples that
    survive the mask. *)
Definition masked_rows (orbit_num : nat) : list sample :=
  filter (fun r => ~ excluded (hp_pixel_index r)) (orbit_csv w orbit_num).

(** The three assignments that end both fitting methods. *)
Definition store_fit (orbit_num : nat) (gain offset : float64) (size : nat)
    (self : t) : result t :=
  gains' ← setitem (gains self) orbit_num gain;
  offsets' ← setitem (offsets self) orbit_num offset;
  sizes' ← setitem (orbit_sizes self) orbit_num (of_nat size);
  Ok (set_orbit_sizes sizes' (set_offsets offsets' (set_gains gains' self))).

(** The plotting blocks that follow the fit in both fitting methods, as
    far as they can raise; [fitted] is the data the fitter was given
    ([orbit_data_masked], respectively [orbit_data_adj]).  In source order:
    the plot of the calibrated data and of [zodi_data_masked] over
    [np.arange(len(fitted))];
    [diff = zodi_data_masked - (fitted - offset)/gain] and its plot;
    [zs = (orbit_data - offset)/gain - zodi_data], on the unmasked columns,
    and its plot over [np.arange(len(orbit_data))].  [zodi_data] is the
    array [load_zodi_orbit] returned at the head of the method.  The plots
    that are left out pair arrays of one length by construction. *)
Definition fit_plots (orbit_num : nat) (fitted zodi_data_masked : list float64)
    (gain offset : float64) : result unit :=
  let '(orbit_data, _, pixel_inds) := load_orbit_data orbit_num in
  let calibrated := map (fun d => fdiv (fsub d offset) gain) fitted in
  _ ← plot (seq 0 (length fitted)) zodi_data_masked;
  diff ← Np.broadcast2 fsub zodi_data_masked calibrated;
  _ ← plot (seq 0 (length fitted)) diff;
  zodi_data ← load_zodi_orbit orbit_num pixel_inds;
  zs ← Np.broadcast2 fsub
         (map (fun d => fdiv (fsub d offset) gain) orbit_data) zodi_data;
  plot (seq 0 (length orbit_data)) zs.

(** [fit_initial_orbit]. *)
Definition fit_initial_orbit (self : t) (orbit_num : nat) : fitM t :=
  let orbit_data_masked := orbit_data_masked orbit_num in
  let orbit_uncs_masked := orbit_uncs_masked orbit_num in
  zodi_data_masked ← lift (zodi_data_masked orbit_num);
  let orbit_fitter :=
    IterativeFitter.Build zodi_data_masked orbit_data_masked
                          orbit_uncs_masked in
  p ← IterativeFitter.iterate_fit minimize orbit_fitter 1;
  _ ← lift (fit_plots orbit_num orbit_data_masked zodi_data_masked p.1 p.2);
  lift (store_fit orbit_num p.1 p.2 (length zodi_data_masked) self).

(** The data [fit_adjusted_orbit] hands to the fitter: [orbit_data_adj]. *)
Definition orbit_data_adj (self : t) (orbit_num : nat)
    : result (list float64) :=
  let '(_, _, pixel_inds) := load_orbit_data orbit_num in
  prev ← of_option AttributeError (fsm_prev self);
  prev_itermap ← Np.gather prev pixel_inds;
  let prev_itermap_masked :=
    drop_entries (entries_to_mask pixel_inds) prev_itermap in
  gain_prev ← of_option IndexError (gains self !! orbit_num);
  let t_gal := map (fun v => fmul v gain_prev) prev_itermap_masked in
  Np.broadcast2 fsub (orbit_data_masked orbit_num) t_gal.

(** [fit_adjusted_orbit]. *)
Definition fit_adjusted_orbit (self : t) (orbit_num : nat) : fitM t :=
  let orbit_uncs_masked := orbit_uncs_masked orbit_num in
  zodi_data_masked ← lift (zodi_data_masked orbit_num);
  orbit_data_adj ← lift (orbit_data_adj self orbit_num);
  let orbit_fitter :=
    IterativeFitter.Build zodi_data_masked orbit_data_adj
                          orbit_uncs_masked in
  p ← IterativeFitter.iterate_fit minimize orbit_fitter 1;
  _ ← lift (fit_plots orbit_num orbit_data_adj zodi_data_masked p.1 p.2);
  lift (store_fit orbit_num p.1 p.2 (length zodi_data_masked) self).

(** [fit_orbit]. *)
Definition fit_orbit (self : t) (k : nat) : fitM t :=
  if decide (iter self = 0)%nat then fit_initial_orbit self k
  else fit_adjusted_orbit self k.

(** [np.divide(x, y, where=(c != 0.0), out=np.zeros_like(c))] on arrays,
    [y] and [c] of one shape: the operands must broadcast to the shape of
    [out]. *)
Definition divide_out (x y c : list float64) : result (list float64) :=
  r ← Np.broadcast2 (fun a yc => Np.divide_where a yc.1 yc.2) x (zip y c);
  if decide (length r = length c) then Ok r else Raise ValueError.

(** [zs_data[zs_data < 0.0] = 0.0]. *)
Definition floor_negative (zs_data : list float64) : list float64 :=
  map (fun z => if flt z zero then zero else z) zs_data.

(** The condition of the [if] in [add_file]:
    [len(orbit_uncs[orbit_uncs != 0.0]) > 0 and gain != 0.0], on the
    unmasked uncertainty column. *)
Definition accumulates (orbit_num : nat) (gain : float64) : bool :=
  let '(_, orbit_uncs, _) := load_orbit_data orbit_num in
  bool_decide (0 < length (filter (fun u => Is_true (fne u zero)) orbit_uncs))%nat
  && fne gain zero.

(** What [add_file] adds for one masked sample with template value [t]:
    the entries of its two [np.divide] results at that sample. *)
Definition numerator_term (gain offset : float64) (r : sample) (t : float64)
    : float64 :=
  let cal_unc := fdiv (pixel_unc r) (fabs gain) in
  let zs := fsub (fdiv (fsub (pixel_value r) offset) gain) t in
  Np.divide_where (if flt zs zero then zero else zs) (fsquare cal_unc) cal_unc.
Definition denominator_term (gain : float64) (r : sample) : float64 :=
  let cal_unc := fdiv (pixel_unc r) (fabs gain) in
  Np.divide_where one (fsquare cal_unc) cal_unc.

(** [add_file]. *)
Definition add_file (self : t) (orbit_num : nat) (gain offset : float64)
    : result t :=
  let orbit_data_masked := orbit_data_masked orbit_num in
  let orbit_uncs_masked := orbit_uncs_masked orbit_num in
  let pixel_inds_masked := pixel_inds_masked orbit_num in
  if accumulates orbit_num gain then
    let cal_data :=
      map (fun d => fdiv (fsub d offset) gain) orbit_data_masked in
    let cal_uncs := map (fun u => fdiv u (fabs gain)) orbit_uncs_masked in
    zodi_data_masked ← zodi_data_masked orbit_num;
    zs_data ← Np.broadcast2 fsub cal_data zodi_data_masked;
    let zs_data := floor_negative zs_data in
    num_add ← divide_out zs_data (map fsquare cal_uncs) cal_uncs;
    numerator' ← Np.iadd_at (numerator self) pixel_inds_masked num_add;
    den_add ← divide_out [one] (map fsquare cal_uncs) cal_uncs;
    denominator' ← Np.iadd_at (denominator self) pixel_inds_masked den_add;
    Ok (set_buffers numerator' denominator' self)
  else Ok self.

(** [normalize]. *)
Definition normalize (self : t) : result t :=
  m ← divide_out (numerator self) (denominator self) (denominator self);
  u ← divide_out [one] (denominator self) (denominator self);
  Ok (set_maps m u self).

(** [weighted_mean_filter(array, weights, size)], a static method. *)
Definition weighted_mean_filter (array weights : list float64) (size : nat)
    : result (list float64) :=
  let step := (size / 2)%nat in
  traverse
    (fun p =>
       let min_ind := (p - step)%nat in
       let max_ind := (length array `min` (p + step))%nat in
       let window := Np.slice min_ind max_ind array in
       let weights_window := Np.slice min_ind max_ind weights in
       let weights_window :=
         map (fun x => fdiv x (Np.sum weights_window)) weights_window in
       Np.average window weights_window)
    (seq 0 (length array)).

(** [smooth_fit_params]. *)
Definition smooth_fit_params (self : t) (window_size : nat)
    : result (list float64 * list float64) :=
  smooth_gains ←
    weighted_mean_filter (gains self) (orbit_sizes self) window_size;
  smooth_offsets ←
    weighted_mean_filter (offsets self) (orbit_sizes self) window_size;
  Ok (smooth_gains, smooth_offsets).

(** [for i in range(num_orbits): self.fit_orbit(i)], from orbit [i0]. *)
Fixpoint fit_orbits (orbits : list nat) (self : t) : fitM t :=
  match orbits with
  | [] => mret self
  | i :: rest => self' ← fit_orbit self i; fit_orbits rest self'
  end.

(** [for j in range(num_orbits):
       self.add_file(j, self.gains[j], self.offsets[j])]. *)
Fixpoint add_files (orbits : list nat) (self : t) : result t :=
  match orbits with
  | [] => Ok self
  | j :: rest =>
      gain ← of_option IndexError (gains self !! j);
      offset ← of_option IndexError (offsets self !! j);
      self' ← add_file self j gain offset;
      add_files rest self'
  end.

(** The two [append]s of copies to the per-iteration archive. *)
Definition archive (self : t) : t :=
  Build (iter self) (numerator self) (denominator self) (gains self)
        (offsets self) (orbit_sizes self)
        (all_gains self ++ [gains self]) (all_offsets self ++ [offsets self])
        (fsm self) (unc_fsm self) (fsm_prev self).

(** The end of the loop body: [self.fsm_prev = self.fsm], [self.iter += 1]
    and [set_output_filenames()], which binds [fsm] and [unc_fsm] to fresh
    maps.

    Modelled from the spec: the constructor of [FullSkyMap] is not among
    the sources; following "allocate a zero-filled map and uncertainty map
    for the current iteration" a fresh map holds [npix] zeros. *)
Definition next_iteration (self : t) : t :=
  Build (S (iter self)) (numerator self) (denominator self) (gains self)
        (offsets self) (orbit_sizes self) (all_gains self) (all_offsets self)
        (Np.zeros (npix w)) (Np.zeros (npix w)) (Some (fsm self)).

(** The state in which the maps of an iteration are saved: after
    [normalize], before the bookkeeping for the next iteration. *)
Definition iteration_maps (num_orbits : nat) (self : t) : fitM t :=
  self ← fit_orbits (seq 0 num_orbits) self;
  let self := archive self in
  self ← lift (add_files (seq 0 num_orbits) self);
  lift (normalize self).

(** One pass of the body of [for it in range(iterations)]. *)
Definition iteration (num_orbits : nat) (self : t) : fitM t :=
  self ← iteration_maps num_orbits self;
  mret (next_iteration self).

(** The loop body as the specification words it: the numerator and
    denominator buffers are zero-filled when the iteration starts. *)
Definition iteration_zero_filled (num_orbits : nat) (self : t) : fitM t :=
  iteration num_orbits
            (set_buffers (Np.zeros (npix w)) (Np.zeros (npix w)) self).

Fixpoint iterations_from (num_orbits iterations : nat) (self : t) : fitM t :=
  match iterations with
  | O => mret self
  | S n => self' ← iteration num_orbits self;
           iterations_from num_orbits n self'
  end.

(** The state [__init__] leaves. *)
Definition init : t :=
  Build 0 (Np.zeros (npix w)) (Np.zeros (npix w)) [] [] [] [] []
        (Np.zeros (npix w)) (Np.zeros (npix w)) None.

(** [run], with its two constants as arguments. *)
Definition run_with (num_orbits iterations : nat) (self : t) : fitM t :=
  let self :=
    set_orbit_sizes (Np.zeros num_orbits)
      (set_offsets (Np.zeros num_orbits)
         (set_gains (Np.zeros num_orbits) self)) in
  iterations_from num_orbits iterations self.

(** [run]. *)
Definition run (self : t) : fitM t := run_with 150 20 self.

End WithWorld.

End Coadder.

(** ** [SplineFitter._clean_data] *)

Module SplineFitter.

Local Open Scope R_scope.

#[global] Instance Rlt_decision : RelDecision Rlt := Rlt_dec.
#[global] Instance Rle_decision : RelDecision Rle := Rle_dec.
#[global] Instance Rgt_decision : RelDecision Rgt := Rgt_dec.
#[global] Instance Req_decision : EqDecision R := Req_dec_T.

(** A float64 of this stage is a real number, or [None] for nan. *)

Definition sum (a : list R) : R := foldr Rplus 0 a.

Definition mean (a : list R) : R := sum a / INR (length a).

(** [np.std], the population standard deviation [scipy.stats.zscore]
    uses ([ddof = 0]). *)
Definition std (a : list R) : R :=
  sqrt (mean (map (fun x => (x - mean a) * (x - mean a)) a)).

(** [scipy.stats.zscore a]: [(a - mean) / std]; for a constant array the
    quotient is [0 / 0], nan.  Over the reals: where a z-score is exactly 1
    in absolute value, the rounding of the program can tip the comparison
    that follows. *)
Definition zscore (a : list R) : list (option R) :=
  map (fun x => if decide (std a = 0) then None
                else Some ((x - mean a) / std a)) a.

(** [np.abs(z) > 1]; a comparison with nan is false. *)
Definition outlier (z : option R) : bool :=
  match z with
  | Some v => bool_decide (Rabs v > 1)
  | None => false
  end.

(** [np.abs(stats.zscore(a)) > 1]. *)
Definition outlier_mask (a : list R) : list bool := map outlier (zscore a).

Fixpoint insert_sorted (x : R) (l : list R) : list R :=
  match l with
  | [] => [x]
  | y :: l' => if decide (x <= y) then x :: l else y :: insert_sorted x l'
  end.

Definition sort (l : list R) : list R := foldr insert_sorted [] l.

(** [np.median arr]: the middle of the sorted values, the mean of the two
    middle ones for an even count, nan for none. *)
Definition median (arr : list R) : option R :=
  let s := sort arr in
  let n := length arr in
  if decide (n = 0)%nat then None
  else if Nat.even n
       then x ← s !! (n / 2 - 1)%nat; y ← s !! (n / 2)%nat; Some ((x + y) / 2)
       else s !! (n / 2)%nat.

(** [a[~mask]] for a boolean array [mask]: the shapes must agree. *)
Definition select_not {A} (mask : list bool) (a : list A) : result (list A) :=
  if decide (length mask = length a)
  then Ok (omap (fun mx : bool * A => if mx.1 then None else Some mx.2)
               (zip mask a))
  else Raise IndexError.

(** [_clean_data(all_gains, all_offsets, all_mjd_vals)]. *)
Definition _clean_data (all_gains all_offsets : list R)
    (all_mjd_vals : list (list R))
    : result (list (option R) * list (option R) * list R * list R) :=
  let median_mjd_vals := map median all_mjd_vals in
  let mask_gains := outlier_mask all_gains in
  let mask_offsets := outlier_mask all_offsets in
  times_gain_masked ← select_not mask_gains median_mjd_vals;
  gains_masked ← select_not mask_gains all_gains;
  times_offset_masked ← select_not mask_offsets median_mjd_vals;
  offsets_masked ← select_not mask_offsets all_offsets;
  Ok (times_gain_masked, times_offset_masked, gains_masked, offsets_masked).


(** The moon-stripe spans of [fit_spline], in MJD, as pairs of bounds: the
    fitted gains, respectively offsets, of the orbits whose median time
    falls strictly inside one of them are left out of the spline. *)
Definition gain_stripes : list (R * R) :=
  [(55200, 55205); (55218, 55224); (55230, 55236); (55247, 55255);
   (55259, 55264); (55276, 55284); (55287, 55295); (55306, 55313);
   (55318, 55324); (55335, 55343); (55348, 55354); (55364, 55370);
   (55378, 55384); (55393, 55402); (55408, 55414)].

Definition offset_stripes : list (R * R) :=
  [(55200, 55208); (55218, 55224); (55230, 55236); (55247, 55255);
   (55259, 55266); (55276, 55284); (55287, 55295); (55306, 55313);
   (55318, 55324); (55335, 55343); (55348, 55354); (55364, 55370);
   (55378, 55384); (55393, 55402); (55407, 55414)].

(** [((lo1 < t) & (t < hi1)) | ((lo2 < t) & (t < hi2)) | ...] at one
    time; every comparison with nan is false. *)
Definition in_stripes (stripes : list (R * R)) (t : option R) : bool :=
  match t with
  | Some v =>
      existsb (fun iv : R * R => bool_decide (iv.1 < v) && bool_decide (v < iv.2))
              stripes
  | None => false
  end.

Definition stripe_gains (times_gain_masked : list (option R)) : list bool :=
  map (in_stripes gain_stripes) times_gain_masked.

Definition stripe_offsets (times_offset_masked : list (option R)) : list bool :=
  map (in_stripes offset_stripes) times_offset_masked.

End SplineFitter.

(** ** The rounding-sensitive expressions over binary64 *)

Module Binary64.

Import Floats.
Local Open Scope float_scope.

(** [IterativeFitter.adjust_data] with every operation rounded to nearest,
    as numpy computes it; [zodi_data] is the attribute of the fitter. *)
Definition adjust_data (zodi_data : list float) (gain offset : float)
    (data : list float) : result (list float) :=
  residual ←
    Np.broadcast2 PrimFloat.sub
      (map (fun d => (d - offset) / gain) data) zodi_data;
  Np.broadcast2 PrimFloat.sub data (map (PrimFloat.mul gain) residual).

(** The entry of [np.divide(1, np.square(cal_uncs), where=cal_uncs != 0.0,
    out=np.zeros_like(cal_uncs))] in [add_file] for one sample of raw
    uncertainty [unc]. *)
Definition denominator_term (gain unc : float) : float :=
  let cal_unc := unc / abs gain in
  if negb (cal_unc =? 0) then 1 / (cal_unc * cal_unc) else 0.

(** [numerator[p] += a] for one orbit and then [numerator[p] += b] for
    another, on one pixel. *)
Definition accumulate (buffer a b : float) : float := (buffer + a) + b.

End Binary64.

(** ** Finite arrays and the formulas of the specification *)

Module Exact.

Local Open Scope Qc_scope.
Local Open Scope list_scope.

(** The float64 array of finite values [l]. *)
Definition arr (l : list Qc) : list float64 := map Fin l.

Definition qnat (n : nat) : Qc := Q2Qc (inject_Z (Z.of_nat n)).
Definition qsum (l : list Qc) : Qc := foldr Qcplus 0 l.
Definition qmean (l : list Qc) : Qc := qsum l / qnat (length l).
Definition qmax (x y : Qc) : Qc := if decide (x < y) then y else x.

(** The cost as the specification words it:
    [mean_over_samples(((raw - (template * gain + offset))
                        / mean(uncertainties))^2)]. *)
Definition chi_sq_spec (gain offset : Qc) (raw template uncertainties : list Qc)
    : Qc :=
  qmean (zip_with
           (fun r t =>
              let z := (r - (t * gain + offset)) / qmean uncertainties in
              z * z)
           raw template).

End Exact.

(** ** A small sky for concrete runs *)

Module Demo.

Import Coadder.

(** A crude derivative-free minimizer: the point of least cost among the
    start point and a fixed grid, the earliest one on a tie. *)
Definition better (cost : float64 * float64 -> float64)
    (p q : float64 * float64) : float64 * float64 :=
  if flt (cost q) (cost p) then q else p.
Definition grid_minimize (grid : list (float64 * float64))
    (cost : float64 * float64 -> float64) (x0 : float64 * float64)
    : float64 * float64 :=
  foldl (better cost) x0 grid.

Definition gain_grid : list (float64 * float64) :=
  [(Fin (Q2Qc 2), zero); (Fin (Q2Qc 3), zero); (Fin (Q2Qc 4), zero)].

Definition minimize := grid_minimize gain_grid.

(** Two pixels, nothing masked, one orbit (number 0) with a sample on each
    pixel: values 2 and 4, uncertainty 1, template 1 everywhere. *)
Definition sky : world :=
  World 2 [zero; zero] [false; false]
        (fun k => if decide (k = 0)%nat
                  then [Sample (Fin (Q2Qc 2)) one 0; Sample (Fin (Q2Qc 4)) one 1]
                  else [])
        (fun _ => [one; one]).

(** The same sky with a second orbit (number 1) whose uncertainties are all
    zero. *)
Definition sky2 : world :=
  World 2 [zero; zero] [false; false]
        (fun k => if decide (k = 0)%nat
                  then [Sample (Fin (Q2Qc 2)) one 0; Sample (Fin (Q2Qc 4)) one 1]
                  else [Sample (Fin (Q2Qc 5)) zero 0])
        (fun _ => [one; one]).

(** Three pixels with the template values 10, 20 and 30, the stripe mask
    set at pixel 1; orbit 0 visits pixel 2 before pixel 0, every other orbit
    visits the masked pixel 1 only. *)
Definition sky3 : world :=
  World 3 [zero; one; zero] [false; false; false]
        (fun k => if decide (k = 0)%nat
                  then [Sample (Fin (Q2Qc 7)) one 2; Sample (Fin (Q2Qc 5)) one 0]
                  else [Sample (Fin (Q2Qc 9)) one 1])
        (fun _ => [Fin (Q2Qc 10); Fin (Q2Qc 20); Fin (Q2Qc 30)]).

(** The state in which [run] enters its loop, for one orbit. *)
Definition start : t :=
  set_orbit_sizes (Np.zeros 1)
    (set_offsets (Np.zeros 1) (set_gains (Np.zeros 1) (init sky))).

(** The state in which outer iteration 0 saves its maps. *)
Definition maps0 : t :=
  default start (value_of (iteration_maps sky minimize 1 start)).

(** The state after orbit 0 is accumulated with gain 3 and offset 0. *)
Definition added0 : t :=
  match add_file sky (init sky) 0 (Fin (Q2Qc 3)) zero with
  | Ok s => s
  | Raise _ => init sky
  end.

(** Two pixels, nothing masked, template 1 everywhere; orbit 0 has a
    sample on each pixel, every other orbit one sample on pixel 1. *)
Definition sky4 : world :=
  World 2 [zero; zero] [false; false]
        (fun k => if decide (k = 0)%nat
                  then [Sample (Fin (Q2Qc 2)) one 0; Sample (Fin (Q2Qc 4)) one 1]
                  else [Sample (Fin (Q2Qc 5)) (Fin (Q2Qc 2)) 1])
        (fun _ => [one; one]).

(** The three-pixel sky after orbit 0 is accumulated with gain 1 and
    offset 0. *)
Definition added3 : t :=
  match add_file sky3 (init sky3) 0 one zero with
  | Ok s => s
  | Raise _ => init sky3
  end.


(** The three-pixel sky after [run] with two orbits and one outer
    iteration, and the state in which the next iteration saves its maps. *)
Definition ran3 : t :=
  default (init sky3) (value_of (run_with sky3 minimize 2 1 (init sky3))).
Definition maps3 : t :=
  default (init sky3) (value_of (iteration_maps sky3 minimize 2 ran3)).

End Demo.

(** ** Notions for stating further properties *)

Module Derived.

Import Coadder.

(** A finite value that is not negative. *)
Definition nonneg (x : float64) : Prop :=
  match x with
  | Fin a => (0 <= a)%Qc
  | _ => False
  end.

(** The addend that goes with pixel [q] when [vals] is scattered over the
    pixels [idx]: the value at the first position of [q] in [idx]. *)
Fixpoint addend_at (idx : list nat) (vals : list float64) (q : nat)
    : option float64 :=
  match idx, vals with
  | i :: idx', v :: vals' =>
      if decide (i = q) then Some v else addend_at idx' vals' q
  | _, _ => None
  end.

(** [x + v] where an addend [v] is there, [x] otherwise. *)
Definition bump (v : option float64) (x : float64) : float64 :=
  match v with
  | Some v => fadd x v
  | None => x
  end.

(** Orbit [k] can be accumulated into the buffers of [self] with gain
    [gain]: [add_file] does not skip it, the template loads and covers the
    masked samples, some sample survives the mask, and the pixel indices of
    the masked samples are distinct and inside both buffers. *)
Definition accumulable (w : world) (self : t) (k : nat) (gain : float64)
    : Prop :=
  accumulates w k gain = true /\
  (exists zs, zodi_data_masked w k = Ok zs /\
              length zs = length (masked_rows w k)) /\
  masked_rows w k <> [] /\
  NoDup (pixel_inds_masked w k) /\
  Forall (fun q => q < length (numerator self) /\
                   q < length (denominator self))%nat
         (pixel_inds_masked w k).

(** The shape [run] keeps from one outer iteration to the next, for
    [num_orbits] orbits: the per-orbit arrays and every archived copy hold
    one entry per orbit, one copy is archived per iteration done, the
    buffers and the previous map have one entry per pixel, the previous map
    exists once an iteration is done, and buffers and previous map are zero
    at the excluded pixels. *)
Definition well_shaped (w : world) (num_orbits : nat) (s : t) : Prop :=
  length (gains s) = num_orbits /\
  length (offsets s) = num_orbits /\
  length (orbit_sizes s) = num_orbits /\
  length (numerator s) = npix w /\
  length (denominator s) = npix w /\
  length (all_gains s) = iter s /\
  length (all_offsets s) = iter s /\
  Forall (fun g => length g = num_orbits) (all_gains s) /\
  Forall (fun o => length o = num_orbits) (all_offsets s) /\
  (0 < iter s -> is_Some (fsm_prev s))%nat /\
  (forall m, fsm_prev s = Some m -> length m = npix w) /\
  (forall q, excluded w q -> q < npix w ->
     numerator s !! q = Some zero /\ denominator s !! q = Some zero)%nat /\
  (forall m q, fsm_prev s = Some m -> excluded w q -> q < npix w ->
     m !! q = Some zero)%nat.

(** The weighted mean of the window of [xs] around position [p], with the
    window of [ws] scaled to unit sum as weights. *)
Definition window_mean (xs ws : list Qc) (step p : nat) : Qc :=
  let lo := (p - step)%nat in
  let hi := (length xs `min` (p + step))%nat in
  let xw := Np.slice lo hi xs in
  let ww := Np.slice lo hi ws in
  let nw := map (fun x => (x / Exact.qsum ww)%Qc) ww in
  (Exact.qsum (zip_with Qcmult xw nw) / Exact.qsum nw)%Qc.

End Derived.

(** * Properties *)

(** ** Arithmetic of finite values *)

Module Float64Facts.

Import Exact.
Local Open Scope Qc_scope.
Local Open Scope list_scope.

(** Division by zero does not raise: it gives an infinity or nan, and nan
    compares unequal to zero. *)
Example fdiv_one_zero : fdiv one zero = PInf.
Proof. by compute_done. Qed.

Example fdiv_zero_zero : fdiv zero zero = NaN.
Proof. by compute_done. Qed.

Example fmul_zero_inf : fmul zero PInf = NaN.
Proof. by compute_done. Qed.

Example fne_nan_zero : fne NaN zero = true.
Proof. done. Qed.

Example mean_of_nothing : Np.mean [] = NaN.
Proof. by compute_done. Qed.

(** A repeated index receives one addend only, and an empty index array
    is refused. *)
Example iadd_at_repeated :
  Np.iadd_at [zero; zero] [0; 0]%nat [one; one] = Ok [one; zero].
Proof. by compute_done. Qed.

Example iadd_at_empty : Np.iadd_at [zero] [] [] = Raise IndexError.
Proof. done. Qed.

Example broadcast_mismatch :
  Np.broadcast2 fadd [one; one] [one; one; one] = Raise ValueError.
Proof. done. Qed.

Lemma fne_zero_decide x : fne x zero = bool_decide (x <> zero).
Proof. by destruct x. Qed.

Lemma fne_zero_fin a : fne (Fin a) zero = bool_decide (a <> 0).
Proof.
  rewrite fne_zero_decide. apply bool_decide_ext. unfold zero.
  split; [intros H ->; by apply H | intros H [=]; by apply H].
Qed.

Lemma Fin_inj a b : Fin a = Fin b -> a = b.
Proof.
  intros H.
  by apply (f_equal (fun x => match x with Fin q => q | _ => 0 end)) in H.
Qed.

Lemma fdiv_fin a b : b <> 0 -> fdiv (Fin a) (Fin b) = Fin (a / b).
Proof. intros Hb. simpl. by rewrite decide_False. Qed.

Lemma fsub_fin a b : fsub (Fin a) (Fin b) = Fin (a - b).
Proof. done. Qed.

Lemma fsquare_fin a : fsquare (Fin a) = Fin (a * a).
Proof. done. Qed.

Lemma qnat_ne_0 n : n <> O -> qnat n <> 0.
Proof.
  intros Hn Hq. apply Hn. unfold qnat in Hq.
  apply (f_equal this) in Hq. simpl in Hq.
  assert (Hz : (inject_Z (Z.of_nat n) == 0)%Q).
  { rewrite <- (Qred_correct (inject_Z (Z.of_nat n))). by rewrite Hq. }
  unfold Qeq, inject_Z in Hz. simpl in Hz. lia.
Qed.

Lemma of_nat_qnat n : of_nat n = Fin (qnat n).
Proof. done. Qed.

Lemma Qcmult_ne_0 (a b : Qc) : a <> 0 -> b <> 0 -> a * b <> 0.
Proof.
  intros Ha Hb Hab. destruct (Qcmult_integral _ _ Hab); contradiction.
Qed.

Lemma Qcdiv_ne_0 (a b : Qc) : a <> 0 -> b <> 0 -> a / b <> 0.
Proof.
  intros Ha Hb Hab. apply Ha.
  assert (Heq : a = a / b * b) by (field; done).
  rewrite Heq, Hab. ring.
Qed.

Lemma Qcabs_ne_0 (a : Qc) : a <> 0 -> Qcabs a <> 0.
Proof. intros Ha Habs. apply Ha. by apply Qcabs_null. Qed.

Lemma sum_arr l : Np.sum (arr l) = Fin (qsum l).
Proof.
  induction l as [| a l IH]; [done |].
  change (Np.sum (arr (a :: l))) with (fadd (Fin a) (Np.sum (arr l))).
  by rewrite IH.
Qed.

Lemma mean_arr l : l <> [] -> Np.mean (arr l) = Fin (qmean l).
Proof.
  intros Hl. unfold Np.mean, qmean, arr.
  rewrite length_map, of_nat_qnat. fold (arr l). rewrite sum_arr.
  apply fdiv_fin, qnat_ne_0. by destruct l.
Qed.

Lemma map_arr (f : float64 -> float64) (g : Qc -> Qc) l :
  (forall a, f (Fin a) = Fin (g a)) -> map f (arr l) = arr (map g l).
Proof.
  intros Hfg. unfold arr. rewrite <- !list_fmap_compose.
  apply list_fmap_ext. intros ? a _. simpl. apply Hfg.
Qed.

Lemma zip_with_arr (f : float64 -> float64 -> float64) (g : Qc -> Qc -> Qc)
    l1 l2 :
  (forall a b, f (Fin a) (Fin b) = Fin (g a b)) ->
  zip_with f (arr l1) (arr l2) = arr (zip_with g l1 l2).
Proof.
  intros Hfg. revert l2.
  induction l1 as [| a l1 IH]; intros [| b l2]; simpl; try done.
  by rewrite Hfg, <- IH.
Qed.

Lemma Forall_finite_arr l : Forall finite (arr l).
Proof. unfold arr. apply Forall_fmap, Forall_true. by intros a. Qed.

Lemma finite_arr l : Forall finite l -> exists q, l = arr q.
Proof.
  induction 1 as [| x l Hx _ [q ->]]; [by exists [] |].
  destruct x as [a | | |]; try done. by exists (a :: q).
Qed.

End Float64Facts.

(** ** Where rounding shows *)

Module Binary64Facts.

Import Floats.
Local Open Scope float_scope.
Local Open Scope list_scope.

(** C10, as stated, fails on binary64 numbers: with gain 5, offset 0 and
    template value 1 the adjustment of the data value 10 is 5, which is
    [g * t + o], but the adjustment of the data value 11 is the binary64
    number next below 5.  The adjusted data is not exactly [g * t + o] and
    it depends on the data. *)
Lemma adjust_data_depends_on_data :
  Binary64.adjust_data [1] 5 0 [10] = Ok [5] /\
  Binary64.adjust_data [1] 5 0 [11] = Ok [0x1.3ffffffffffffp+2] /\
  5 * 1 + 0 = 5.
Proof. repeat split; reflexivity. Qed.

(** A gain of exactly zero in the adjust step gives nan on binary64
    numbers as it does in exact arithmetic. *)
Lemma adjust_data_zero_gain :
  Binary64.adjust_data [1] 0 0 [1] = Ok [nan].
Proof. reflexivity. Qed.

(** The guard of [add_file] tests [cal_uncs], the divisor is its square:
    a raw uncertainty of [2^-600] is not zero and passes the guard, its
    square underflows to zero, and the denominator receives [1 / 0],
    infinity. *)
Lemma guard_misses_underflow :
  (0x1p-600 =? 0) = false /\
  0x1p-600 * 0x1p-600 = 0 /\
  Binary64.denominator_term 1 0x1p-600 = infinity.
Proof. repeat split; reflexivity. Qed.

(** Addition of binary64 numbers is not associative: two addends that
    reach one pixel in either order can leave sums that differ in the last
    place. *)
Lemma accumulate_order :
  Binary64.accumulate 1 1 0x1p+53 = 0x1.0000000000001p+53 /\
  Binary64.accumulate 1 0x1p+53 1 = 0x1p+53.
Proof. split; reflexivity. Qed.

End Binary64Facts.

(** ** The per-segment fitter *)

Module FitterFacts.

Import Exact Float64Facts IterativeFitter.
Local Open Scope Qc_scope.
Local Open Scope list_scope.

Lemma broadcast2_same_length {A B C} (f : A -> B -> C) xs ys :
  length xs = length ys -> Np.broadcast2 f xs ys = Ok (zip_with f xs ys).
Proof. intros H. unfold Np.broadcast2. by rewrite decide_True. Qed.

(** The residual of [chi_sq] on finite arrays. *)
Lemma residual_arr (g o : Qc) (xs ys : list Qc) :
  zip_with fsub (arr xs)
           (map (fun y => fadd (fmul y (Fin g)) (Fin o)) (arr ys)) =
  arr (zip_with (fun x y => x - (y * g + o)) xs ys).
Proof.
  rewrite (map_arr _ (fun y => y * g + o)) by done.
  rewrite (zip_with_arr _ Qcminus) by done.
  f_equal. revert ys. induction xs as [| x xs IH]; intros [| y ys]; simpl;
    try done.
  by rewrite IH.
Qed.

(** C2, as the code has it: on a non-empty finite sample set the cost is
    the mean over the samples of the square of the residual divided by the
    SQUARE of the mean uncertainty. *)
Theorem chi_sq_divides_by_squared_mean (g o : Qc) (xs ys sg : list Qc) :
  xs <> [] ->
  length xs = length ys ->
  qmean sg <> 0 ->
  chi_sq (Fin g, Fin o) (arr xs) (arr ys) (arr sg) =
  Ok (Fin (qmean (zip_with
                    (fun x y =>
                       let z := (x - (y * g + o)) / (qmean sg * qmean sg) in
                       z * z)
                    xs ys))).
Proof.
  intros Hxs Hlen Hm.
  assert (Hsg : sg <> []) by (intros ->; by apply Hm).
  unfold chi_sq. cbn [fst snd].
  rewrite broadcast2_same_length
    by (unfold arr; by rewrite !length_map).
  cbn [mbind result_bind].
  rewrite residual_arr, (mean_arr sg Hsg), fsquare_fin.
  assert (Hmm : qmean sg * qmean sg <> 0) by by apply Qcmult_ne_0.
  rewrite (map_arr _ (fun r => r / (qmean sg * qmean sg)))
    by (intros a; by apply fdiv_fin).
  rewrite (map_arr _ (fun r => r * r)) by done.
  assert (Hn : length (arr xs) <> O)
    by (unfold arr; rewrite length_map; by destruct xs).
  rewrite decide_True by lia.
  rewrite sum_arr, of_nat_qnat, fdiv_fin by by apply qnat_ne_0.
  do 2 f_equal. clear Hm Hmm Hsg. generalize (qmean sg * qmean sg). intros d.
  unfold qmean. rewrite length_zip_with.
  unfold arr. rewrite length_map, <- Hlen, Nat.min_id.
  f_equal.
  rewrite <- list_fmap_compose.
  clear. revert ys.
  induction xs as [| x xs IH]; intros [| y ys]; simpl; try done.
  by rewrite IH.
Qed.

Lemma chi_sq_divides_by_squared_mean_witness :
  chi_sq (Fin 1, Fin 0) (arr [Q2Qc 2]) (arr [0]) (arr [Q2Qc 2]) =
  Ok (Fin (Q2Qc (1 # 4))).
Proof.
  rewrite (chi_sq_divides_by_squared_mean 1 0 [Q2Qc 2] [0] [Q2Qc 2]);
    [by compute_done | done | done | by compute_done].
Defined.

(** C2, as stated, fails: with one sample of residual 2 and uncertainty 2
    the code returns 1/4, the stated cost is 1. *)
Lemma chi_sq_not_spec :
  chi_sq (Fin 1, Fin 0) (arr [Q2Qc 2]) (arr [0]) (arr [Q2Qc 2]) <>
  Ok (Fin (chi_sq_spec 1 0 [Q2Qc 2] [0] [Q2Qc 2])).
Proof. by compute_done. Qed.

(** C6: on an empty sample set [iterate_fit] returns exactly (0.0, 0.0)
    and its log of minimizer calls is empty, whatever the minimizer, the
    template, the uncertainties and the number of rounds. *)
Theorem iterate_fit_empty minimize zodi uncs n :
  iterate_fit minimize (Build zodi [] uncs) n = FitM [] (Ok (zero, zero)).
Proof. done. Qed.

(** *** The log monad *)

Lemma fitM_eta {A} (m : fitM A) : FitM (calls m) (outcome m) = m.
Proof. by destruct m. Qed.

Lemma bind_lift_ok {A B} (f : A -> fitM B) a : lift (Ok a) ≫= f = f a.
Proof. unfold mbind, fitM_bind, lift. simpl. apply fitM_eta. Qed.

Lemma bind_lift_raise {A B} (f : A -> fitM B) e :
  lift (Raise e) ≫= f = FitM [] (Raise e).
Proof. done. Qed.

Lemma bind_ret {A B} (f : A -> fitM B) a : mret a ≫= f = f a.
Proof. apply bind_lift_ok. Qed.

Lemma calls_bind {A B} (f : A -> fitM B) m :
  calls (m ≫= f) =
  calls m ++ match outcome m with Ok a => calls (f a) | Raise _ => [] end.
Proof.
  unfold mbind, fitM_bind. destruct (outcome m); simpl; [done |].
  by rewrite app_nil_r.
Qed.

Lemma outcome_bind {A B} (f : A -> fitM B) m :
  outcome (m ≫= f) =
  match outcome m with Ok a => outcome (f a) | Raise e => Raise e end.
Proof. unfold mbind, fitM_bind. by destruct (outcome m). Qed.

(** *** [chi_sq] raises on a shape mismatch only *)

Lemma chi_sq_ok params x y sigma :
  length x = length y -> exists v, chi_sq params x y sigma = Ok v.
Proof.
  intros Hlen. unfold chi_sq.
  rewrite broadcast2_same_length by by rewrite length_map.
  simpl. eauto.
Qed.

Section Refinement.

Variable minimize :
  (float64 * float64 -> float64) -> float64 * float64 -> float64 * float64.

Lemma fit_to_zodi_ok data zodi uncs :
  length data = length zodi ->
  fit_to_zodi minimize data zodi uncs =
  FitM [FitCall data zodi uncs]
       (Ok (minimize (cost_of (FitCall data zodi uncs)) (one, zero))).
Proof.
  intros Hlen. unfold fit_to_zodi.
  destruct (chi_sq_ok (one, zero) data zodi uncs Hlen) as [v ->].
  done.
Qed.

(** One refinement adjustment on finite arrays, entry by entry. *)
Lemma adjust_data_arr (g o : Qc) (t d : list Qc) raw uncs :
  g <> 0 ->
  length d = length t ->
  adjust_data (Build (arr t) raw uncs) (Fin g) (Fin o) (arr d) =
  Ok (arr (map (fun x => g * x + o) t)).
Proof.
  intros Hg Hlen. unfold adjust_data. cbn [zodi_data].
  rewrite (map_arr _ (fun x => (x - o) / g))
    by (intros a; rewrite fsub_fin; by apply fdiv_fin).
  rewrite broadcast2_same_length
    by (unfold arr; by rewrite !length_map).
  cbn [mbind result_bind].
  rewrite (zip_with_arr _ Qcminus) by done.
  rewrite (map_arr _ (Qcmult g)) by done.
  rewrite broadcast2_same_length
    by (unfold arr; rewrite !length_map, length_zip_with, length_map; lia).
  rewrite (zip_with_arr _ Qcminus) by done.
  do 2 f_equal. revert t Hlen.
  induction d as [| x d IH]; intros [| y t] Hlen; simpl in *; try done.
  f_equal; [by field | apply IH; lia].
Qed.

(** After a round whose fit is a finite [(g, o)] with [g <> 0], the rounds
    that remain run on [g * template + o]. *)
Lemma fit_rounds_step (g o : Qc) (t d : list Qc) raw uncs n last :
  g <> 0 ->
  length d = length t ->
  minimize (cost_of (FitCall (arr d) (arr t) uncs)) (one, zero)
    = (Fin g, Fin o) ->
  let self := Build (arr t) raw uncs in
  let rest :=
    fit_rounds minimize self n (arr (map (fun x => g * x + o) t)) uncs
               (Some (Fin g, Fin o)) in
  fit_rounds minimize self (S n) (arr d) uncs last =
  FitM (FitCall (arr d) (arr t) uncs :: calls rest) (outcome rest).
Proof.
  intros Hg Hlen Hmin self rest. subst self rest.
  cbn [fit_rounds zodi_data].
  rewrite fit_to_zodi_ok by (unfold arr; by rewrite !length_map).
  rewrite Hmin.
  unfold mbind at 1, fitM_bind. cbn [outcome calls fst snd].
  rewrite adjust_data_arr by done.
  by rewrite bind_lift_ok.
Qed.

Lemma fit_rounds_first_call self n data uncs last c :
  calls (fit_rounds minimize self n data uncs last) !! O = Some c ->
  c = FitCall data (zodi_data self) uncs.
Proof.
  destruct n as [| n]; [done |]. cbn [fit_rounds].
  rewrite calls_bind. unfold fit_to_zodi.
  rewrite calls_bind. simpl. congruence.
Qed.

Lemma fit_rounds_calls (t : list Qc) raw uncs n :
  (forall c, exists g o,
      minimize (cost_of c) (one, zero) = (Fin g, Fin o) /\ g <> 0) ->
  forall (d : list Qc) last j c_prev c,
  length d = length t ->
  let log := calls (fit_rounds minimize (Build (arr t) raw uncs) n
                               (arr d) uncs last) in
  log !! j = Some c_prev ->
  log !! S j = Some c ->
  exists g o,
    minimize (cost_of c_prev) (one, zero) = (Fin g, Fin o) /\ g <> 0 /\
    fc_data c = arr (map (fun x => g * x + o) t).
Proof.
  intros Hmin. induction n as [| n IH]; intros d last j c_prev c Hlen log;
    [done |].
  destruct (Hmin (FitCall (arr d) (arr t) uncs)) as (g & o & Hgo & Hg).
  subst log. rewrite (fit_rounds_step g o) by done. cbn [calls].
  destruct j as [| j]; simpl.
  - intros [= <-] Hc. apply fit_rounds_first_call in Hc. subst c.
    by exists g, o.
  - apply IH. by rewrite length_map.
Qed.

End Refinement.

(** The grid minimizer answers with the start point or a grid point. *)
Lemma grid_minimize_in grid cost x0 :
  Demo.grid_minimize grid cost x0 ∈ x0 :: grid.
Proof.
  unfold Demo.grid_minimize. revert x0.
  induction grid as [| q grid IH]; intros x0; [by left |].
  cbn [foldl]. specialize (IH (Demo.better cost x0 q)).
  apply elem_of_cons in IH as [-> | IH].
  - unfold Demo.better. destruct (flt _ _); [right; left | left].
  - by do 2 right.
Qed.

Lemma demo_minimize_gain c :
  exists g o,
    Demo.minimize (cost_of c) (one, zero) = (Fin g, Fin o) /\ g <> 0.
Proof.
  pose proof (grid_minimize_in Demo.gain_grid (cost_of c) (one, zero)) as Hin.
  fold Demo.minimize in Hin. unfold Demo.gain_grid in Hin.
  repeat (apply elem_of_cons in Hin as [-> | Hin]);
    [| | | | by apply elem_of_nil in Hin];
    eexists _, _; (split; [reflexivity | by compute_done]).
Qed.

End FitterFacts.

(** ** The coadder *)

Module CoadderFacts.

Import Exact Float64Facts FitterFacts Coadder.
Local Open Scope Qc_scope.
Local Open Scope list_scope.

(** *** Masking *)

Section Masking.

Variable w : world.

Lemma elem_of_entries_to_mask pix i :
  i ∈ entries_to_mask w pix <-> exists p, pix !! i = Some p /\ excluded w p.
Proof.
  unfold entries_to_mask. rewrite list_elem_of_filter, elem_of_seq. split.
  - intros [H _]. destruct (pix !! i) as [p |]; [| done].
    exists p. split; [done |]. by eapply bool_decide_unpack.
  - intros (p & Hp & He). rewrite Hp. split; [by apply bool_decide_pack |].
    apply lookup_lt_Some in Hp. lia.
Qed.

(** A comprehension over [range(len(l))] that looks only at [l[i]] is a
    comprehension over [l]. *)
Lemma omap_seq_lookup {A B} (h : nat -> option B) (k : A -> option B)
    (l : list A) n :
  (forall i x, l !! i = Some x -> h (n + i)%nat = k x) ->
  omap h (seq n (length l)) = omap k l.
Proof.
  revert n. induction l as [| x l IH]; intros n Hh; [done |].
  change (omap h (n :: seq (S n) (length l)) = omap k (x :: l)).
  change (match h n with
          | Some y => y :: omap h (seq (S n) (length l))
          | None => omap h (seq (S n) (length l))
          end =
          match k x with Some y => y :: omap k l | None => omap k l end).
  rewrite <- (Hh O x eq_refl), Nat.add_0_r.
  rewrite (IH (S n)); [done |].
  intros i y Hy. rewrite <- (Hh (S i) y Hy). f_equal. lia.
Qed.

Lemma omap_filter_map {A B} (P : A -> Prop) `{forall x, Decision (P x)}
    (f : A -> B) (l : list A) :
  omap (fun x => if decide (P x) then None else Some (f x)) l =
  map f (filter (fun x => ~ P x) l).
Proof.
  induction l as [| x l IH]; [done |].
  change (omap ?g (x :: l))
    with (match g x with Some y => y :: omap g l | None => omap g l end).
  rewrite filter_cons.
  destruct (decide (P x)) as [HP | HP].
  - by rewrite decide_False by tauto.
  - rewrite decide_True by done. cbn [map]. by rewrite IH.
Qed.

(** Masking a column that is a function of the rows keeps the rows whose
    pixel is not excluded. *)
Lemma drop_entries_column {B} (f : sample -> B) (rows : list sample)
    (col : list B) :
  length col = length rows ->
  (forall i r, rows !! i = Some r -> col !! i = Some (f r)) ->
  drop_entries (entries_to_mask w (map hp_pixel_index rows)) col =
  map f (filter (fun r => ~ excluded w (hp_pixel_index r)) rows).
Proof.
  intros Hlen Hcol. unfold drop_entries. rewrite Hlen.
  rewrite <- (omap_filter_map (fun r => excluded w (hp_pixel_index r))).
  apply omap_seq_lookup. intros i r Hr. cbn [Nat.add].
  rewrite (Hcol i r Hr).
  destruct (decide (excluded w (hp_pixel_index r))) as [He | He].
  - rewrite decide_True; [done |].
    apply elem_of_entries_to_mask. exists (hp_pixel_index r).
    by rewrite list_lookup_fmap, Hr.
  - rewrite decide_False; [done |].
    rewrite elem_of_entries_to_mask. intros (p & Hp & Hex).
    rewrite list_lookup_fmap, Hr in Hp. by injection Hp as <-.
Qed.

Lemma drop_entries_map {B} (f : sample -> B) (rows : list sample) :
  drop_entries (entries_to_mask w (map hp_pixel_index rows)) (map f rows) =
  map f (filter (fun r => ~ excluded w (hp_pixel_index r)) rows).
Proof.
  apply drop_entries_column; [by rewrite length_map |].
  intros i r Hr. by rewrite list_lookup_fmap, Hr.
Qed.

Lemma orbit_data_masked_rows k :
  orbit_data_masked w k = map pixel_value (masked_rows w k).
Proof. apply drop_entries_map. Qed.

Lemma orbit_uncs_masked_rows k :
  orbit_uncs_masked w k = map pixel_unc (masked_rows w k).
Proof. apply drop_entries_map. Qed.

Lemma pixel_inds_masked_rows k :
  pixel_inds_masked w k = map hp_pixel_index (masked_rows w k).
Proof. apply drop_entries_map. Qed.

End Masking.

(** *** Gather and scatter *)

Lemma traverse_ok {A B} (f : A -> result B) (g : A -> B) (l : list A) :
  Forall (fun a => f a = Ok (g a)) l -> traverse f l = Ok (map g l).
Proof.
  induction 1 as [| a l Ha _ IH]; [done |].
  cbn [traverse]. rewrite Ha. cbn [mbind result_bind]. by rewrite IH.
Qed.

Lemma gather_ok a idx :
  Forall (fun i => i < length a)%nat idx ->
  Np.gather a idx = Ok (map (fun i => a !!! i) idx).
Proof.
  intros Hidx. apply traverse_ok.
  induction Hidx as [| i idx Hi _ IH]; constructor; [| done].
  apply lookup_lt_is_Some in Hi as [v Hv].
  by rewrite (list_lookup_total_correct _ _ _ Hv), Hv.
Qed.

Lemma length_put a idx vals : length (Np.put a idx vals) = length a.
Proof.
  revert a vals. induction idx as [| i idx IH]; intros a [| v vals];
    try done.
  cbn [Np.put]. by rewrite IH, length_insert.
Qed.

Lemma put_lookup_notin a idx vals q :
  q ∉ idx -> Np.put a idx vals !! q = a !! q.
Proof.
  revert a vals. induction idx as [| i idx IH]; intros a [| v vals] Hq;
    try done.
  cbn [Np.put]. apply not_elem_of_cons in Hq as [Hqi Hq].
  rewrite IH by done. by apply list_lookup_insert_ne.
Qed.

Lemma put_lookup_nodup a idx vals i p v :
  NoDup idx ->
  idx !! i = Some p ->
  vals !! i = Some v ->
  (p < length a)%nat ->
  Np.put a idx vals !! p = Some v.
Proof.
  revert a vals i. induction idx as [| j idx IH]; intros a vals i Hnd Hp Hv Hlt;
    [done |].
  destruct vals as [| u vals]; [by destruct i |].
  apply NoDup_cons in Hnd as [Hj Hnd]. cbn [Np.put].
  destruct i as [| i]; simpl in Hp, Hv.
  - injection Hp as ->. injection Hv as ->.
    rewrite put_lookup_notin by done. by apply list_lookup_insert_eq.
  - apply (IH _ _ i); [done .. |]. by rewrite length_insert.
Qed.

Lemma Forall_put (P : float64 -> Prop) a idx vals :
  Forall P a -> Forall P vals -> Forall P (Np.put a idx vals).
Proof.
  revert a vals. induction idx as [| i idx IH]; intros a [| v vals] Ha Hv;
    try done.
  cbn [Np.put]. apply Forall_cons in Hv as [Hv Hvs].
  apply IH; [| done]. by apply Forall_insert.
Qed.

Lemma iadd_at_ok a idx vals :
  idx <> [] ->
  Forall (fun i => i < length a)%nat idx ->
  length vals = length idx ->
  Np.iadd_at a idx vals =
  Ok (Np.put a idx (zip_with fadd (map (fun i => a !!! i) idx) vals)).
Proof.
  intros Hne Hidx Hlen. unfold Np.iadd_at.
  rewrite decide_False by done. rewrite gather_ok by done.
  cbn [mbind result_bind].
  rewrite broadcast2_same_length by (rewrite length_map; lia).
  cbn [mbind result_bind].
  rewrite decide_True; [done |].
  rewrite length_zip_with, length_map. lia.
Qed.

Lemma broadcast2_scalar {A B C} (f : A -> B -> C) x ys :
  Np.broadcast2 f [x] ys = Ok (map (f x) ys).
Proof.
  unfold Np.broadcast2. case_decide as Hlen; [| done].
  destruct ys as [| y [| ? ?]]; done.
Qed.

(** *** Accumulation *)

Section Accumulation.

Variable w : world.

Lemma numerator_addends gain offset (rows : list sample) zs :
  zip_with (fun a (yc : float64 * float64) => Np.divide_where a yc.1 yc.2)
    (floor_negative
       (zip_with fsub
          (map (fun d => fdiv (fsub d offset) gain) (map pixel_value rows))
          zs))
    (zip (map fsquare (map (fun u => fdiv u (fabs gain)) (map pixel_unc rows)))
         (map (fun u => fdiv u (fabs gain)) (map pixel_unc rows))) =
  zip_with (numerator_term gain offset) rows zs.
Proof.
  revert zs. induction rows as [| r rows IH]; intros [| z zs]; try done.
  cbn [map zip_with floor_negative zip fst snd]. f_equal. apply IH.
Qed.

Lemma denominator_addends gain (rows : list sample) :
  map (fun yc : float64 * float64 => Np.divide_where one yc.1 yc.2)
    (zip (map fsquare (map (fun u => fdiv u (fabs gain)) (map pixel_unc rows)))
         (map (fun u => fdiv u (fabs gain)) (map pixel_unc rows))) =
  map (denominator_term gain) rows.
Proof.
  induction rows as [| r rows IH]; [done |].
  cbn [map zip zip_with fst snd]. f_equal. apply IH.
Qed.

Lemma divide_out_same x y c :
  length x = length c ->
  length y = length c ->
  divide_out x y c =
  Ok (zip_with (fun a (yc : float64 * float64) => Np.divide_where a yc.1 yc.2)
               x (zip y c)).
Proof.
  intros Hx Hy. unfold divide_out.
  rewrite broadcast2_same_length by (rewrite length_zip; lia).
  cbn [mbind result_bind].
  rewrite decide_True; [done |]. rewrite length_zip_with, length_zip. lia.
Qed.

Lemma divide_out_scalar a y c :
  length y = length c ->
  divide_out [a] y c =
  Ok (map (fun yc : float64 * float64 => Np.divide_where a yc.1 yc.2)
          (zip y c)).
Proof.
  intros Hy. unfold divide_out. rewrite broadcast2_scalar.
  cbn [mbind result_bind].
  rewrite decide_True; [done |]. rewrite length_map, length_zip. lia.
Qed.

(** The buffers [add_file] writes when it does not skip the orbit. *)
Lemma add_file_ok self k gain offset zs :
  let rows := masked_rows w k in
  let idx := map hp_pixel_index rows in
  accumulates w k gain = true ->
  zodi_data_masked w k = Ok zs ->
  length zs = length rows ->
  rows <> [] ->
  Forall (fun p => p < length (numerator self))%nat idx ->
  Forall (fun p => p < length (denominator self))%nat idx ->
  add_file w self k gain offset =
  Ok (set_buffers
        (Np.put (numerator self) idx
           (zip_with fadd (map (fun p => numerator self !!! p) idx)
              (zip_with (numerator_term gain offset) rows zs)))
        (Np.put (denominator self) idx
           (zip_with fadd (map (fun p => denominator self !!! p) idx)
              (map (denominator_term gain) rows)))
        self).
Proof.
  intros rows idx Hacc Hzs Hlen Hne Hnum Hden. unfold add_file.
  rewrite Hacc, Hzs. cbn [mbind result_bind].
  rewrite orbit_data_masked_rows, orbit_uncs_masked_rows,
    pixel_inds_masked_rows.
  fold rows. fold idx.
  assert (Hidx : idx <> []) by (subst idx; by destruct rows).
  rewrite (broadcast2_same_length fsub) by (rewrite !length_map; lia).
  cbn [mbind result_bind].
  rewrite (divide_out_same (floor_negative _))
    by (unfold floor_negative;
        rewrite ?length_map, ?length_zip_with, ?length_map; lia).
  cbn [mbind result_bind]. rewrite numerator_addends.
  rewrite iadd_at_ok;
    [| done | done | subst idx; rewrite length_zip_with, length_map; lia].
  cbn [mbind result_bind].
  rewrite divide_out_scalar by (by rewrite !length_map).
  cbn [mbind result_bind].
  rewrite denominator_addends.
  rewrite iadd_at_ok; [done | done | done |].
  subst idx. by rewrite !length_map.
Qed.

(** The addends of a finite sample under a finite nonzero gain, in exact
    arithmetic. *)
Lemma numerator_term_fin (g o raw unc t : Qc) p :
  g <> 0 ->
  numerator_term (Fin g) (Fin o) (Sample (Fin raw) (Fin unc) p) (Fin t) =
  Fin (if decide (unc = 0) then 0
       else qmax ((raw - o) / g - t) 0
            / ((unc / Qcabs g) * (unc / Qcabs g))).
Proof.
  intros Hg. unfold numerator_term. cbn [pixel_unc pixel_value fabs].
  assert (Habs : Qcabs g <> 0) by by apply Qcabs_ne_0.
  rewrite !fsub_fin, !fdiv_fin, fsub_fin, fsquare_fin by done.
  unfold Np.divide_where. rewrite fne_zero_fin.
  destruct (decide (unc = 0)) as [-> | Hunc].
  - rewrite bool_decide_false; [done |].
    intros Hne. apply Hne. unfold Qcdiv. ring.
  - assert (Hcu : unc / Qcabs g <> 0) by by apply Qcdiv_ne_0.
    rewrite bool_decide_true by done.
    assert (Hsq : unc / Qcabs g * (unc / Qcabs g) <> 0) by by apply Qcmult_ne_0.
    unfold qmax, zero. cbn [flt].
    destruct (decide ((raw - o) / g - t < 0)) as [Hlt | Hlt].
    + rewrite bool_decide_true by done. by rewrite fdiv_fin.
    + rewrite bool_decide_false by done. by rewrite fdiv_fin.
Qed.

Lemma denominator_term_fin (g unc raw : Qc) p :
  g <> 0 ->
  denominator_term (Fin g) (Sample (Fin raw) (Fin unc) p) =
  Fin (if decide (unc = 0) then 0
       else 1 / ((unc / Qcabs g) * (unc / Qcabs g))).
Proof.
  intros Hg. unfold denominator_term. cbn [pixel_unc fabs].
  assert (Habs : Qcabs g <> 0) by by apply Qcabs_ne_0.
  rewrite !fdiv_fin, fsquare_fin by done.
  unfold Np.divide_where. rewrite fne_zero_fin.
  destruct (decide (unc = 0)) as [-> | Hunc].
  - rewrite bool_decide_false; [done |].
    intros Hne. apply Hne. unfold Qcdiv. ring.
  - assert (Hcu : unc / Qcabs g <> 0) by by apply Qcdiv_ne_0.
    rewrite bool_decide_true by done.
    unfold one. rewrite fdiv_fin; [done |]. by apply Qcmult_ne_0.
Qed.

Lemma accumulates_zero_gain k : accumulates w k zero = false.
Proof. unfold accumulates. cbn. apply andb_false_r. Qed.

Lemma accumulates_zero_uncs k gain :
  Forall (fun r => pixel_unc r = zero) (orbit_csv w k) ->
  accumulates w k gain = false.
Proof.
  intros Hz. unfold accumulates, load_orbit_data.
  rewrite bool_decide_false; [done |].
  enough (filter (fun u => Is_true (fne u zero))
                 (map pixel_unc (orbit_csv w k)) = []) as -> by (simpl; lia).
  induction Hz as [| r rows Hr _ IH]; [done |].
  cbn [map]. rewrite filter_cons, Hr, decide_False; [done |].
  rewrite fne_zero_decide, bool_decide_false by (intros Hne; by apply Hne).
  by intros [].
Qed.

(** C7: a segment whose gain is exactly zero, or all of whose raw
    uncertainties are zero, leaves the state, and so both accumulation
    buffers, as they were. *)
Theorem add_file_skips self k gain offset :
  gain = zero \/ Forall (fun r => pixel_unc r = zero) (orbit_csv w k) ->
  add_file w self k gain offset = Ok self.
Proof.
  intros Hskip. unfold add_file.
  enough (accumulates w k gain = false) as -> by done.
  destruct Hskip as [-> | Hz].
  - apply accumulates_zero_gain.
  - by apply accumulates_zero_uncs.
Qed.


End Accumulation.

(** *** Normalization *)

(** C4: on buffers of one length [normalize] returns, and at every pixel
    the map is [numerator / denominator] and the uncertainty map is
    [1 / denominator] where the denominator is nonzero, and both are
    exactly zero where it is zero. *)
Theorem normalize_pixel self p n d :
  length (numerator self) = length (denominator self) ->
  numerator self !! p = Some n ->
  denominator self !! p = Some d ->
  exists self',
    normalize self = Ok self' /\
    fsm self' !! p = Some (if decide (d = zero) then zero else fdiv n d) /\
    unc_fsm self' !! p = Some (if decide (d = zero) then zero else fdiv one d).
Proof.
  intros Hlen Hn Hd. unfold normalize.
  rewrite (divide_out_same (numerator self)), divide_out_scalar by done.
  cbn [mbind result_bind]. eexists. split; [done |].
  cbn [set_maps fsm unc_fsm].
  rewrite lookup_zip_with, list_lookup_fmap, lookup_zip_with, Hn, Hd.
  cbn. unfold Np.divide_where. rewrite fne_zero_decide.
  destruct (decide (d = zero)) as [-> | Hne]; [done |].
  by rewrite bool_decide_true.
Qed.

(** *** What the array operations preserve *)

Lemma traverse_Forall {A B} (f : A -> result B) (P : B -> Prop) l r :
  traverse f l = Ok r ->
  (forall a b, a ∈ l -> f a = Ok b -> P b) ->
  Forall P r.
Proof.
  revert r. induction l as [| a l IH]; intros r Hr Hf.
  - injection Hr as <-. constructor.
  - cbn [traverse] in Hr.
    destruct (f a) as [b |] eqn:Hb; [| done]. cbn [mbind result_bind] in Hr.
    destruct (traverse f l) as [bs |]; [| done]. injection Hr as <-.
    constructor.
    + apply (Hf a); [left | done].
    + apply IH; [done |]. intros a' b' Ha'. apply Hf. by right.
Qed.

Lemma gather_Forall (P : float64 -> Prop) a idx l :
  Np.gather a idx = Ok l -> Forall P a -> Forall P l.
Proof.
  intros Hl Ha. apply (traverse_Forall _ _ _ _ Hl).
  intros i b _ Hb. destruct (a !! i) as [v |] eqn:Hv; [| done].
  injection Hb as <-. rewrite Forall_lookup in Ha. by eapply Ha.
Qed.

Lemma broadcast2_Forall {A B C} (f : A -> B -> C)
    (P : A -> Prop) (Q : B -> Prop) (R : C -> Prop) xs ys r :
  Np.broadcast2 f xs ys = Ok r ->
  Forall P xs -> Forall Q ys ->
  (forall x y, P x -> Q y -> R (f x y)) ->
  Forall R r.
Proof.
  intros Hr Hxs Hys Hf. unfold Np.broadcast2 in Hr.
  assert (Hzip : Forall R (zip_with f xs ys)).
  { clear Hr. revert ys Hys.
    induction Hxs as [| x xs Hx _ IH]; intros ys Hys; [constructor |].
    destruct Hys as [| y ys Hy Hys]; [constructor |].
    cbn [zip_with]. constructor; [by apply Hf | by apply IH]. }
  case_decide; [by injection Hr as <- |].
  assert (Hl : forall x, P x -> Forall R (map (f x) ys)).
  { intros x Hx. apply Forall_fmap.
    apply (Forall_impl _ _ _ Hys). intros y Hy. by apply Hf. }
  assert (Hrt : forall y, Q y -> Forall R (map (fun x => f x y) xs)).
  { intros y Hy. apply Forall_fmap.
    apply (Forall_impl _ _ _ Hxs). intros x Hx. by apply Hf. }
  destruct xs as [| x [| x' xs]].
  - destruct ys as [| y [| y' ys]]; try done. injection Hr as <-. constructor.
  - injection Hr as <-. apply Hl. by inversion Hxs.
  - destruct ys as [| y [| y' ys]]; try done. injection Hr as <-.
    apply Hrt. by inversion Hys.
Qed.

Lemma drop_entries_Forall {A} (P : A -> Prop) entries (col : list A) :
  Forall P col -> Forall P (drop_entries entries col).
Proof.
  intros Hcol. unfold drop_entries. apply Forall_forall. intros x Hx.
  apply list_elem_of_omap in Hx as (i & _ & Hi).
  case_decide; [done |].
  rewrite Forall_lookup in Hcol. by eapply Hcol.
Qed.

Lemma load_zodi_orbit_finite w k idx zs :
  load_zodi_orbit w k idx = Ok zs ->
  Forall finite (zodi_fits w k) -> Forall finite zs.
Proof.
  intros Hzs Hfits. unfold load_zodi_orbit in Hzs.
  case_decide; [| done]. injection Hzs as <-.
  apply Forall_forall. intros x Hx.
  apply list_elem_of_omap in Hx as (i & _ & Hi).
  destruct (_ !! i) as [v |]; [| done].
  destruct (fne v zero); [| done].
  rewrite Forall_lookup in Hfits. by eapply Hfits.
Qed.


(** *** What the fitter is handed *)

Section Fitting.

Variable w : world.
Variable minimize :
  (float64 * float64 -> float64) -> float64 * float64 -> float64 * float64.

Lemma calls_lift {A} (r : result A) : calls (lift r) = [].
Proof. done. Qed.

Lemma calls_fit_to_zodi data zodi uncs :
  calls (IterativeFitter.fit_to_zodi minimize data zodi uncs) =
  [FitCall data zodi uncs].
Proof.
  unfold IterativeFitter.fit_to_zodi.
  rewrite calls_bind. cbn [tell calls outcome].
  rewrite calls_bind, calls_lift. cbn [app outcome lift].
  by destruct (IterativeFitter.chi_sq _ _ _ _).
Qed.

(** One round of [iterate_fit] makes at most one call, on the data of the
    fitter. *)
Lemma calls_iterate_fit_1 self c :
  c ∈ calls (IterativeFitter.iterate_fit minimize self 1) ->
  c = FitCall (IterativeFitter.raw_data self) (IterativeFitter.zodi_data self)
              (IterativeFitter.raw_uncs self).
Proof.
  unfold IterativeFitter.iterate_fit. case_decide; [| by intros ?%elem_of_nil].
  cbn [IterativeFitter.fit_rounds]. rewrite calls_bind, calls_fit_to_zodi.
  match goal with |- _ ∈ _ ++ ?tl -> _ => assert (tl = []) as -> end.
  { destruct (outcome _) as [p |]; [| done].
    rewrite calls_bind, calls_lift. cbn [app outcome lift].
    by destruct (IterativeFitter.adjust_data _ _ _ _). }
  by intros ->%list_elem_of_singleton.
Qed.

Lemma calls_fit_initial_orbit self k c :
  c ∈ calls (fit_initial_orbit w minimize self k) ->
  fc_data c = orbit_data_masked w k.
Proof.
  unfold fit_initial_orbit. rewrite calls_bind, calls_lift. cbn [app outcome lift].
  destruct (zodi_data_masked w k) as [zs |]; [| by intros ?%elem_of_nil].
  rewrite calls_bind. intros Hc. apply elem_of_app in Hc as [Hc | Hc].
  - by apply calls_iterate_fit_1 in Hc as ->.
  - destruct (outcome _); [| by apply elem_of_nil in Hc].
    rewrite calls_bind, calls_lift in Hc. cbn [app outcome lift] in Hc.
    destruct (fit_plots _ _ _ _ _ _); by apply elem_of_nil in Hc.
Qed.

Lemma calls_fit_adjusted_orbit self k c :
  c ∈ calls (fit_adjusted_orbit w minimize self k) ->
  orbit_data_adj w self k = Ok (fc_data c).
Proof.
  unfold fit_adjusted_orbit. rewrite calls_bind, calls_lift. cbn [app outcome lift].
  destruct (zodi_data_masked w k) as [zs |]; [| by intros ?%elem_of_nil].
  rewrite calls_bind, calls_lift. cbn [app outcome lift].
  destruct (orbit_data_adj w self k) as [adj |]; [| by intros ?%elem_of_nil].
  rewrite calls_bind. intros Hc. apply elem_of_app in Hc as [Hc | Hc].
  - by apply calls_iterate_fit_1 in Hc as ->.
  - destruct (outcome _); [| by apply elem_of_nil in Hc].
    rewrite calls_bind, calls_lift in Hc. cbn [app outcome lift] in Hc.
    destruct (fit_plots _ _ _ _ _ _); by apply elem_of_nil in Hc.
Qed.

Lemma gather_Ok_map a idx l :
  Np.gather a idx = Ok l -> l = map (fun i => a !!! i) idx.
Proof.
  revert l. induction idx as [| i idx IH]; intros l Hl.
  - by injection Hl as <-.
  - unfold Np.gather in Hl. cbn [traverse] in Hl.
    destruct (a !! i) as [v |] eqn:Hv; [| done].
    cbn [of_option mbind result_bind] in Hl.
    destruct (traverse _ idx) as [vs |] eqn:Hvs; [| done].
    injection Hl as <-. cbn [map].
    by rewrite (list_lookup_total_correct _ _ _ Hv), (IH vs).
Qed.

(** [orbit_data_adj], sample by sample: the raw value minus the previous
    map at the pixel of the sample times the gain stored for the orbit. *)
Lemma orbit_data_adj_rows self k adj :
  orbit_data_adj w self k = Ok adj ->
  exists prev g,
    fsm_prev self = Some prev /\ gains self !! k = Some g /\
    adj = map (fun r => fsub (pixel_value r)
                             (fmul (prev !!! hp_pixel_index r) g))
              (masked_rows w k).
Proof.
  unfold orbit_data_adj, load_orbit_data. intros Hadj.
  destruct (fsm_prev self) as [prev |]; [| done].
  cbn [of_option mbind result_bind] in Hadj.
  destruct (Np.gather prev _) as [pm |] eqn:Hpm; [| done].
  cbn [mbind result_bind] in Hadj. apply gather_Ok_map in Hpm as ->.
  destruct (gains self !! k) as [g |]; [| done].
  cbn [of_option mbind result_bind] in Hadj.
  exists prev, g. split; [done |]. split; [done |].
  rewrite orbit_data_masked_rows in Hadj.
  rewrite (drop_entries_column w (fun r => prev !!! hp_pixel_index r)) in Hadj;
    [| by rewrite !length_map
     | intros i r Hr; by rewrite !list_lookup_fmap, Hr].
  rewrite broadcast2_same_length in Hadj by by rewrite !length_map.
  injection Hadj as <-.
  fold (masked_rows w k). generalize (masked_rows w k). intros rows.
  induction rows as [| r rows IH]; [done |].
  cbn [map zip_with]. by rewrite IH.
Qed.

(** Fitting orbit [j] rewrites the entries of orbit [j] only: the
    iteration counter, the previous map and the gains of the other orbits
    stay. *)
Lemma store_fit_frame j gain offset size self self' :
  store_fit j gain offset size self = Ok self' ->
  iter self' = iter self /\ fsm_prev self' = fsm_prev self /\
  forall i, i <> j -> gains self' !! i = gains self !! i.
Proof.
  unfold store_fit, setitem. intros Hs.
  destruct (decide (j < length (gains self))%nat); [| done].
  cbn [mbind result_bind] in Hs.
  destruct (decide (j < length (offsets self))%nat); [| done].
  cbn [mbind result_bind] in Hs.
  destruct (decide (j < length (orbit_sizes self))%nat); [| done].
  cbn [mbind result_bind] in Hs.
  injection Hs as <-. cbn. split; [done |]. split; [done |].
  intros i Hi. by apply list_lookup_insert_ne.
Qed.

Lemma fit_orbit_frame self j self' :
  outcome (fit_orbit w minimize self j) = Ok self' ->
  iter self' = iter self /\ fsm_prev self' = fsm_prev self /\
  forall i, i <> j -> gains self' !! i = gains self !! i.
Proof.
  unfold fit_orbit, fit_initial_orbit, fit_adjusted_orbit.
  case_decide.
  - rewrite outcome_bind. cbn [outcome lift].
    destruct (zodi_data_masked w j) as [zs |]; [| done].
    rewrite outcome_bind. destruct (outcome _) as [p |]; [| done].
    rewrite outcome_bind. cbn [outcome lift].
    destruct (fit_plots _ _ _ _ _ _) as [[] |]; [| done].
    apply store_fit_frame.
  - rewrite outcome_bind. cbn [outcome lift].
    destruct (zodi_data_masked w j) as [zs |]; [| done].
    rewrite outcome_bind. cbn [outcome lift].
    destruct (orbit_data_adj w self j) as [adj |]; [| done].
    rewrite outcome_bind. destruct (outcome _) as [p |]; [| done].
    rewrite outcome_bind. cbn [outcome lift].
    destruct (fit_plots _ _ _ _ _ _) as [[] |]; [| done].
    apply store_fit_frame.
Qed.

Lemma fit_orbits_frame orbits self self' :
  outcome (fit_orbits w minimize orbits self) = Ok self' ->
  iter self' = iter self /\ fsm_prev self' = fsm_prev self /\
  forall i, i ∉ orbits -> gains self' !! i = gains self !! i.
Proof.
  revert self. induction orbits as [| j orbits IH]; intros self.
  - cbn. by intros [= <-].
  - cbn [fit_orbits]. rewrite outcome_bind.
    destruct (outcome (fit_orbit w minimize self j)) as [s1 |] eqn:Hj; [| done].
    intros Hrest. apply fit_orbit_frame in Hj as (Hi & Hp & Hg).
    apply IH in Hrest as (Hi' & Hp' & Hg').
    split; [congruence |]. split; [congruence |].
    intros i Hni. apply not_elem_of_cons in Hni as [Hij Hni].
    rewrite Hg' by done. by apply Hg.
Qed.

(** C5: in an outer iteration that starts in state [s], let [sk] be the
    state in which orbit [k] is fitted (orbits [0 .. k-1] have been
    fitted).  Every call the fit of orbit [k] makes to the minimizer has as
    data: on iteration 0 the masked raw samples; on a later iteration, whose
    start state [s] is what the iteration before it left after normalizing
    in state [m], the masked raw samples minus the map of [m] at the pixel
    of each sample times the gain of orbit [k] in [m], that is the gain the
    iteration before stored. *)
Theorem fit_orbit_data_passed num_orbits (s sk : t) k c :
  outcome (fit_orbits w minimize (seq 0 k) s) = Ok sk ->
  c ∈ calls (fit_orbit w minimize sk k) ->
  (iter s = 0%nat -> fc_data c = orbit_data_masked w k) /\
  (forall s_prev m,
      outcome (iteration_maps w minimize num_orbits s_prev) = Ok m ->
      s = next_iteration w m ->
      exists g,
        gains m !! k = Some g /\
        fc_data c =
          map (fun r => fsub (pixel_value r)
                             (fmul (fsm m !!! hp_pixel_index r) g))
              (masked_rows w k)).
Proof.
  intros Hsk Hc. apply fit_orbits_frame in Hsk as (Hiter & Hprev & Hgains).
  unfold fit_orbit in Hc. split.
  - intros H0. rewrite decide_True in Hc by congruence.
    by apply calls_fit_initial_orbit in Hc.
  - intros s_prev m _ ->. cbn [next_iteration iter fsm_prev gains] in *.
    rewrite decide_False in Hc by lia.
    apply calls_fit_adjusted_orbit, orbit_data_adj_rows in Hc
      as (prev & g & Hp & Hg & ->).
    rewrite Hprev in Hp. injection Hp as <-.
    exists g. split; [| done].
    rewrite <- Hg. symmetry. apply Hgains.
    rewrite elem_of_seq. lia.
Qed.

End Fitting.

(** *** The buffers across outer iterations *)

(** The bookkeeping that ends an outer iteration leaves the two buffers as
    the accumulation of that iteration left them: the next iteration starts
    on these sums. *)
Lemma iteration_keeps_buffers w minimize num_orbits s s' :
  outcome (iteration w minimize num_orbits s) = Ok s' ->
  exists m,
    outcome (iteration_maps w minimize num_orbits s) = Ok m /\
    numerator s' = numerator m /\ denominator s' = denominator m.
Proof.
  unfold iteration. rewrite outcome_bind.
  destruct (outcome (iteration_maps w minimize num_orbits s)) as [m |];
    [| done].
  intros [= <-]. by exists m.
Qed.

(** C1 fails on the code: [run] zero-fills the two buffers in [__init__]
    only.  In the two-pixel sky, run for one outer iteration, the buffers
    with which iteration 1 starts hold the sums of iteration 0; the map
    iteration 1 then saves is the quotient of the sums over both iterations,
    [7/13] at pixel 1, where the mean over the contributions of iteration 1
    alone (the same iteration started on zero-filled buffers) is [1]. *)
Theorem buffers_carry_over_iterations :
  let after0 := run_with Demo.sky Demo.minimize 1 1 (init Demo.sky) in
  numerator <$> value_of after0 = Some [zero; Fin (Q2Qc 3)] /\
  denominator <$> value_of after0 = Some [Fin (Q2Qc 9); Fin (Q2Qc 9)] /\
  value_of (after0 ≫= iteration Demo.sky Demo.minimize 1) ≫= fsm_prev
    = Some [zero; Fin (Q2Qc (7 # 13))] /\
  value_of (after0 ≫= iteration_zero_filled Demo.sky Demo.minimize 1)
    ≫= fsm_prev
    = Some [zero; one].
Proof. repeat split; by compute_done. Qed.

(** *** The theorems at work in the two-pixel sky *)

Lemma add_file_skips_witness :
  add_file Demo.sky2 (init Demo.sky2) 1 one zero = Ok (init Demo.sky2).
Proof. apply add_file_skips. right. by repeat constructor. Defined.

Lemma normalize_pixel_witness :
  exists self',
    normalize (set_buffers [zero; Fin (Q2Qc 3)] [Fin (Q2Qc 9); Fin (Q2Qc 9)]
                           (init Demo.sky)) = Ok self' /\
    fsm self' !! 1%nat = Some (Fin (Q2Qc (1 # 3))) /\
    unc_fsm self' !! 1%nat = Some (Fin (Q2Qc (1 # 9))).
Proof.
  destruct (normalize_pixel
              (set_buffers [zero; Fin (Q2Qc 3)] [Fin (Q2Qc 9); Fin (Q2Qc 9)]
                           (init Demo.sky))
              1 (Fin (Q2Qc 3)) (Fin (Q2Qc 9)))
    as (self' & Hn & Hm & Hu); [by vm_compute | by vm_compute | by vm_compute |].
  exists self'. rewrite Hm, Hu. split; [done |]. split; by compute_done.
Defined.

Lemma fit_orbit_data_passed_witness :
  exists g,
    gains Demo.maps0 !! 0%nat = Some g /\
    [Fin (Q2Qc 2); Fin (Q2Qc 3)] =
      map (fun r => fsub (pixel_value r)
                         (fmul (fsm Demo.maps0 !!! hp_pixel_index r) g))
          (masked_rows Demo.sky 0).
Proof.
  refine (proj2 (fit_orbit_data_passed Demo.sky Demo.minimize 1
                   (next_iteration Demo.sky Demo.maps0)
                   (next_iteration Demo.sky Demo.maps0) 0
                   (FitCall [Fin (Q2Qc 2); Fin (Q2Qc 3)] [one; one] [one; one])
                   eq_refl _)
                Demo.start Demo.maps0 _ eq_refl); by compute_done.
Defined.

End CoadderFacts.

(** ** The outlier rejection of the spline stage *)

Module SplineFacts.

Import SplineFitter.
Local Open Scope R_scope.



(** *** The z-score test without the square root *)


(** *** Nine values near 1.0 and one value of 50.0 *)


Lemma sum_cons x l : sum (x :: l) = x + sum l.
Proof. done. Qed.


Lemma map_all_false {A} (g : A -> bool) l :
  Forall (fun x => g x = false) l -> map g l = replicate (length l) false.
Proof.
  induction 1 as [| x l Hx _ IH]; [done |].
  cbn [map length replicate]. by rewrite Hx, IH.
Qed.





End SplineFacts.

(** ** More on the per-segment fitter *)

Module FitterMore.

Import Exact Float64Facts FitterFacts IterativeFitter.
Local Open Scope Qc_scope.
Local Open Scope list_scope.

Lemma Qcsquare_nonneg (x : Qc) : 0 <= x * x.
Proof.
  destruct (Qclt_le_dec x 0) as [Hneg | Hpos].
  - replace (x * x) with ((- x) * (- x)) by ring.
    assert (0 <= - x).
    { apply Qclt_le_weak. apply Qclt_minus_iff in Hneg.
      by rewrite Qcplus_0_l in Hneg. }
    by apply Qcmult_nonneg_nonneg.
  - by apply Qcmult_nonneg_nonneg.
Qed.

Lemma qnat_pos n : n <> O -> 0 < qnat n.
Proof.
  intros Hn. unfold qnat, Qclt. cbn [this Q2Qc].
  rewrite !Qred_correct. unfold Qlt, inject_Z. simpl. lia.
Qed.

Lemma Qcdiv_nonneg (a b : Qc) : 0 <= a -> 0 < b -> 0 <= a / b.
Proof.
  intros Ha Hb. unfold Qcdiv. apply Qcmult_nonneg_nonneg; [done |].
  by apply Qclt_le_weak, Qcinv_pos.
Qed.

Lemma qsum_nonneg l : Forall (fun x => 0 <= x) l -> 0 <= qsum l.
Proof.
  induction 1 as [| x l Hx _ IH]; [done |].
  cbn [qsum foldr]. by apply Qcplus_nonneg_nonneg.
Qed.

Lemma qsum_zeros {A} (l : list A) : qsum (map (fun _ => 0) l) = 0.
Proof.
  induction l as [| x l IH]; [done |].
  cbn [map qsum foldr]. fold (qsum (map (fun _ : A => 0) l)). rewrite IH. ring.
Qed.

(** The value of [chi_sq] on finite arrays, as a sum over the residuals. *)
Lemma chi_sq_value (g o : Qc) (xs ys sg : list Qc) :
  xs <> [] ->
  length xs = length ys ->
  qmean sg <> 0 ->
  chi_sq (Fin g, Fin o) (arr xs) (arr ys) (arr sg) =
  Ok (Fin (qsum (map (fun r => r / (qmean sg * qmean sg)
                               * (r / (qmean sg * qmean sg)))
                     (zip_with (fun x y => x - (y * g + o)) xs ys))
           / qnat (length xs))).
Proof.
  intros Hxs Hlen Hm.
  assert (Hsg : sg <> []) by (intros ->; by apply Hm).
  unfold chi_sq. cbn [fst snd].
  rewrite broadcast2_same_length by (unfold arr; by rewrite !length_map).
  cbn [mbind result_bind].
  rewrite residual_arr, (mean_arr sg Hsg), fsquare_fin.
  assert (Hmm : qmean sg * qmean sg <> 0) by by apply Qcmult_ne_0.
  rewrite (map_arr _ (fun r => r / (qmean sg * qmean sg)))
    by (intros a; by apply fdiv_fin).
  rewrite (map_arr _ (fun r => r * r)) by done.
  assert (Hn : length (arr xs) <> O)
    by (unfold arr; rewrite length_map; by destruct xs).
  rewrite decide_True by lia.
  rewrite sum_arr, of_nat_qnat, fdiv_fin by by apply qnat_ne_0.
  unfold arr. by rewrite length_map, <- list_fmap_compose.
Qed.

(** X1: on noise-free data [template * g + o] the cost at [(g, o)] is
    exactly zero, and at every finite parameter pair the cost is a finite
    number that is not negative: the true parameters are a global minimum
    of [chi_sq]. *)
Theorem chi_sq_least_at_true_parameters (g o g' o' : Qc) (ts sg : list Qc) :
  ts <> [] ->
  qmean sg <> 0 ->
  let data := map (fun t => t * g + o) ts in
  chi_sq (Fin g, Fin o) (arr data) (arr ts) (arr sg) = Ok (Fin 0) /\
  exists c,
    chi_sq (Fin g', Fin o') (arr data) (arr ts) (arr sg) = Ok (Fin c) /\
    0 <= c.
Proof.
  intros Hts Hm data.
  assert (Hdata : data <> []) by (subst data; by destruct ts).
  assert (Hlen : length data = length ts) by (subst data; by rewrite length_map).
  split.
  - rewrite chi_sq_value by done. do 2 f_equal.
    assert (Hres : zip_with (fun x y => x - (y * g + o)) data ts
                   = map (fun _ => 0) ts).
    { subst data. clear. induction ts as [| t ts IH]; [done |].
      cbn [map zip_with]. rewrite IH. f_equal. ring. }
    rewrite Hres, <- list_fmap_compose.
    replace (map ((fun r : Qc => r / (qmean sg * qmean sg)
                                 * (r / (qmean sg * qmean sg)))
                  ∘ (fun _ : Qc => 0)) ts)
      with (map (fun _ : Qc => 0) ts)
      by (apply list_fmap_ext; intros ? ? _; cbn; unfold Qcdiv; ring).
    rewrite qsum_zeros. unfold Qcdiv. ring.
  - eexists. split; [by apply chi_sq_value |].
    apply Qcdiv_nonneg; [| apply qnat_pos; by destruct data].
    apply qsum_nonneg, Forall_fmap, Forall_true.
    intros r. apply Qcsquare_nonneg.
Qed.

Lemma chi_sq_least_at_true_parameters_witness :
  chi_sq (Fin (Q2Qc 2), Fin (Q2Qc 3))
         (arr (map (fun t => t * Q2Qc 2 + Q2Qc 3) [1; Q2Qc 5]))
         (arr [1; Q2Qc 5]) (arr [1]) = Ok (Fin 0) /\
  exists c,
    chi_sq (Fin 1, Fin 0)
           (arr (map (fun t => t * Q2Qc 2 + Q2Qc 3) [1; Q2Qc 5]))
           (arr [1; Q2Qc 5]) (arr [1]) = Ok (Fin c) /\
    0 <= c.
Proof.
  apply (chi_sq_least_at_true_parameters (Q2Qc 2) (Q2Qc 3) 1 0
                                         [1; Q2Qc 5] [1]);
    [done | by compute_done].
Defined.

Section Rounds.

Variable minimize :
  (float64 * float64 -> float64) -> float64 * float64 -> float64 * float64.

Lemma fit_rounds_count (t : list Qc) raw uncs n :
  (forall c, exists g o,
      minimize (cost_of c) (one, zero) = (Fin g, Fin o) /\ g <> 0) ->
  forall (d : list Qc) bound,
  length d = length t ->
  let m := fit_rounds minimize (Build (arr t) raw uncs) n (arr d) uncs bound in
  length (calls m) = n /\
  match n with
  | O => outcome m = of_option UnboundLocalError bound
  | S _ => exists c, last (calls m) = Some c /\
                     outcome m = Ok (minimize (cost_of c) (one, zero))
  end.
Proof.
  intros Hmin. induction n as [| n IH]; intros d bound Hlen m; [done |].
  destruct (Hmin (FitCall (arr d) (arr t) uncs)) as (g & o & Hgo & Hg).
  subst m. rewrite (fit_rounds_step minimize g o) by done.
  cbn [calls outcome].
  specialize (IH (map (fun x => g * x + o) t) (Some (Fin g, Fin o))).
  destruct IH as [Hcount Hout]; [by rewrite length_map |].
  split; [by rewrite <- Hcount at 2 |].
  destruct n as [| n].
  - apply nil_length_inv in Hcount. rewrite Hcount, Hout. cbn [of_option].
    exists (FitCall (arr d) (arr t) uncs).
    split; [done |]. by rewrite Hgo.
  - destruct Hout as (c & Hlast & Hout). exists c.
    split; [| done].
    destruct (calls _) as [| c0 cs] eqn:Hcs; [done |].
    exact Hlast.
Qed.

(** C10, amended: in exact arithmetic.  With a nonzero finite gain one
    refinement adjustment returns [g * t + o] at every index, whatever the
    data; and in [iterate_fit] on a non-empty sample set, with a minimizer
    that answers with finite parameters of nonzero gain, every round after
    the first exists and hands the minimizer the template scaled by the
    parameters the round before it fitted. *)
Theorem refinement_fits_scaled_template (t d : list Qc) uncs n :
  length d = length t ->
  (forall c, exists g o,
      minimize (cost_of c) (one, zero) = (Fin g, Fin o) /\ g <> 0) ->
  (forall g o raw,
      g <> 0 ->
      adjust_data (Build (arr t) raw uncs) (Fin g) (Fin o) (arr d) =
      Ok (arr (map (fun x => g * x + o) t))) /\
  (d <> [] ->
   forall j,
     (S j < n)%nat ->
     let log := calls (iterate_fit minimize (Build (arr t) (arr d) uncs) n) in
     exists c_prev c g o,
       log !! j = Some c_prev /\
       log !! S j = Some c /\
       minimize (cost_of c_prev) (one, zero) = (Fin g, Fin o) /\ g <> 0 /\
       fc_data c = arr (map (fun x => g * x + o) t)).
Proof.
  intros Hlen Hmin. split.
  - intros g o raw Hg. by apply adjust_data_arr.
  - intros Hd j Hj log. subst log. unfold iterate_fit.
    cbn [raw_data raw_uncs].
    rewrite decide_True
      by (unfold arr; rewrite length_map; destruct d; [done | cbn; lia]).
    destruct (fit_rounds_count t (arr d) uncs n Hmin d None Hlen)
      as [Hcount _].
    destruct (lookup_lt_is_Some_2
                (calls (fit_rounds minimize (Build (arr t) (arr d) uncs) n
                                   (arr d) uncs None)) j) as [c_prev Hprev];
      [lia |].
    destruct (lookup_lt_is_Some_2
                (calls (fit_rounds minimize (Build (arr t) (arr d) uncs) n
                                   (arr d) uncs None)) (S j)) as [c Hc];
      [lia |].
    destruct (fit_rounds_calls minimize t (arr d) uncs n Hmin d None j
                               c_prev c Hlen Hprev Hc)
      as (g & o & Hgo & Hg & Hdata).
    by exists c_prev, c, g, o.
Qed.

(** X2: on a non-empty finite sample set with a template of the same
    length, and a minimizer that answers with finite parameters of nonzero
    gain, [iterate_fit n] calls the minimizer exactly [n] times; it returns
    what the minimizer answered on the last call, and with [n = 0] it makes
    no call and fails with UnboundLocalError, [gain] and [offset] never
    having been bound. *)
Theorem iterate_fit_rounds (t d : list Qc) uncs n :
  d <> [] ->
  length d = length t ->
  (forall c, exists g o,
      minimize (cost_of c) (one, zero) = (Fin g, Fin o) /\ g <> 0) ->
  let m := iterate_fit minimize (Build (arr t) (arr d) uncs) n in
  length (calls m) = n /\
  match n with
  | O => outcome m = Raise UnboundLocalError
  | S _ => exists c, last (calls m) = Some c /\
                     outcome m = Ok (minimize (cost_of c) (one, zero))
  end.
Proof.
  intros Hd Hlen Hmin m. subst m. unfold iterate_fit. cbn [raw_data raw_uncs].
  rewrite decide_True by (unfold arr; rewrite length_map; destruct d; [done | cbn; lia]).
  by apply fit_rounds_count.
Qed.

End Rounds.

Lemma refinement_fits_scaled_template_witness :
  exists c_prev c g o,
    calls (iterate_fit Demo.minimize
             (Build (arr [1; 1]) (arr [Q2Qc 2; Q2Qc 4]) (arr [1; 1])) 2)
      !! 0%nat = Some c_prev /\
    calls (iterate_fit Demo.minimize
             (Build (arr [1; 1]) (arr [Q2Qc 2; Q2Qc 4]) (arr [1; 1])) 2)
      !! 1%nat = Some c /\
    Demo.minimize (cost_of c_prev) (one, zero) = (Fin g, Fin o) /\ g <> 0 /\
    fc_data c = arr (map (fun x => g * x + o) [1; 1]).
Proof.
  apply (proj2 (refinement_fits_scaled_template Demo.minimize
                  [1; 1] [Q2Qc 2; Q2Qc 4] (arr [1; 1]) 2
                  eq_refl demo_minimize_gain));
    [done | lia].
Defined.

Lemma iterate_fit_rounds_witness :
  let m := iterate_fit Demo.minimize
             (Build (arr [1; 1]) (arr [Q2Qc 2; Q2Qc 4]) (arr [1; 1])) 2 in
  length (calls m) = 2%nat /\
  exists c, last (calls m) = Some c /\
            outcome m = Ok (Demo.minimize (cost_of c) (one, zero)).
Proof.
  apply (iterate_fit_rounds Demo.minimize [1; 1] [Q2Qc 2; Q2Qc 4]
                            (arr [1; 1]) 2);
    [done | done | apply demo_minimize_gain].
Defined.

End FitterMore.

(** ** More on the coadder: masks and templates *)

Module CoadderMore.

Import Exact Float64Facts FitterFacts CoadderFacts Coadder.
Local Open Scope Qc_scope.
Local Open Scope list_scope.

Section Masks.

Variable w : world.

Lemma elem_of_positions_where {A} (P : A -> bool) (l : list A) i :
  i ∈ positions_where P l <-> exists x, l !! i = Some x /\ P x = true.
Proof.
  unfold positions_where. rewrite list_elem_of_filter, elem_of_seq. split.
  - intros [H _]. destruct (l !! i) as [x |]; [| done].
    exists x. split; [done |]. by apply Is_true_true.
  - intros (x & Hx & HP). rewrite Hx. split; [by apply Is_true_true |].
    apply lookup_lt_Some in Hx. lia.
Qed.

(** A pixel is excluded exactly when the stripe mask holds a nonzero
    value there or the galaxy mask is set there. *)
Lemma excluded_iff p :
  excluded w p <->
  (exists v, stripe_mask w !! p = Some v /\ v <> zero) \/
  galaxy_mask w !! p = Some true.
Proof.
  unfold excluded, moon_stripe_inds, galaxy_mask_inds.
  rewrite !elem_of_positions_where. split.
  - intros [(v & Hv & Hne) | (b & Hb & ->)]; [left | by right].
    exists v. split; [done |]. rewrite fne_zero_decide in Hne.
    by apply bool_decide_eq_true in Hne.
  - intros [(v & Hv & Hne) | Hb]; [left | right].
    + exists v. split; [done |]. rewrite fne_zero_decide.
      by apply bool_decide_eq_true.
    + by exists true.
Qed.

(** X3: the three masked columns of an orbit stay aligned.  They are the
    values, uncertainties and pixel indices of one list of CSV rows, which
    keeps the file order and holds exactly the rows at whose pixel the
    stripe mask is zero (or too short) and the galaxy mask is not set. *)
Theorem masked_columns_aligned k :
  exists rows : list sample,
    orbit_data_masked w k = map pixel_value rows /\
    orbit_uncs_masked w k = map pixel_unc rows /\
    pixel_inds_masked w k = map hp_pixel_index rows /\
    rows `sublist_of` orbit_csv w k /\
    forall r,
      r ∈ rows <->
      r ∈ orbit_csv w k /\
      ~ ((exists v, stripe_mask w !! hp_pixel_index r = Some v /\ v <> zero) \/
         galaxy_mask w !! hp_pixel_index r = Some true).
Proof.
  exists (masked_rows w k).
  split; [apply orbit_data_masked_rows |].
  split; [apply orbit_uncs_masked_rows |].
  split; [apply pixel_inds_masked_rows |].
  split; [apply sublist_filter |].
  intros r. unfold masked_rows. rewrite list_elem_of_filter, excluded_iff.
  tauto.
Qed.

(** *** [load_zodi_orbit] *)

Lemma put_ones_lookup (a : list float64) idx i :
  Np.put a idx (replicate (length idx) one) !! i =
  if decide (i ∈ idx /\ i < length a)%nat then Some one else a !! i.
Proof.
  revert a. induction idx as [| j idx IH]; intros a.
  - cbn. rewrite decide_False; [done |]. intros [H _]. by apply elem_of_nil in H.
  - cbn [length replicate Np.put]. rewrite IH, length_insert.
    destruct (decide (i ∈ idx /\ i < length a)%nat) as [[Hin Hlt] | Hnot].
    + rewrite decide_True; [done |]. split; [by right | done].
    + destruct (decide (i = j)) as [-> | Hij].
      * destruct (decide (j < length a)%nat) as [Hlt | Hge].
        -- rewrite list_lookup_insert_eq by done.
           rewrite decide_True; [done |]. split; [left | done].
        -- rewrite list_insert_ge by lia.
           rewrite decide_False; [done |]. intros [_ ?]. lia.
      * rewrite list_lookup_insert_ne by done.
        rewrite decide_False; [done |].
        intros [Hin Hlt]. apply Hnot. split; [| done].
        by apply elem_of_cons in Hin as [-> | Hin].
Qed.

Lemma omap_if_filter {A B} (P : A -> Prop) `{forall x, Decision (P x)}
    (h : A -> option B) (f : A -> B) (l : list A) :
  (forall x, x ∈ l -> h x = if decide (P x) then Some (f x) else None) ->
  omap h l = map f (filter P l).
Proof.
  induction l as [| x l IH]; intros Hh; [done |].
  change (omap h (x :: l))
    with (match h x with Some y => y :: omap h l | None => omap h l end).
  rewrite filter_cons, (Hh x) by left.
  rewrite IH by (intros y Hy; apply Hh; by right).
  by destruct (decide (P x)).
Qed.

Lemma filter_ext_elem {A} (P Q : A -> Prop) `{forall x, Decision (P x)}
    `{forall x, Decision (Q x)} (l : list A) :
  (forall x, x ∈ l -> P x <-> Q x) -> filter P l = filter Q l.
Proof.
  induction l as [| x l IH]; intros HPQ; [done |].
  rewrite !filter_cons, IH by (intros y Hy; apply HPQ; by right).
  specialize (HPQ x (list_elem_of_here _ _)).
  destruct (decide (P x)), (decide (Q x)); tauto.
Qed.

Lemma filter_seq_ascending idx :
  StronglySorted lt idx ->
  forall n j,
  Forall (fun p => j <= p < j + n)%nat idx ->
  filter (fun p => p ∈ idx) (seq j n) = idx.
Proof.
  intros Hsorted n. revert idx Hsorted.
  induction n as [| n IH]; intros idx Hsorted j Hrange.
  - destruct Hrange as [| p idx Hp _]; [done | lia].
  - cbn [seq]. rewrite filter_cons.
    destruct Hsorted as [| p idx Hs Hlt].
    + rewrite decide_False by apply not_elem_of_nil.
      apply (IH [] (SSorted_nil _)). constructor.
    + apply Forall_cons in Hrange as [Hp Hrange].
      assert (Hrest : Forall (fun q => S j <= q < S j + n)%nat idx).
      { rewrite Forall_forall in Hlt, Hrange |- *. intros q Hq.
        specialize (Hlt q Hq). specialize (Hrange q Hq). lia. }
      destruct (decide (p = j)) as [-> | Hpj].
      * rewrite decide_True by left. f_equal.
        transitivity (filter (fun q => q ∈ idx) (seq (S j) n));
          [| by apply IH].
        apply filter_ext_elem. intros q Hq. split; [| by right].
        intros Hin. apply elem_of_cons in Hin as [-> | Hin]; [| done].
        apply elem_of_seq in Hq. lia.
      * rewrite decide_False.
        -- apply (IH (p :: idx)); [by constructor |].
           constructor; [lia | done].
        -- intros Hin. apply elem_of_cons in Hin as [-> | Hin]; [done |].
           rewrite Forall_forall in Hlt. specialize (Hlt j Hin). lia.
Qed.

Lemma load_zodi_orbit_ok k (pixel_inds : list nat) :
  Forall (fun p => p < length (zodi_fits w k))%nat pixel_inds ->
  load_zodi_orbit w k pixel_inds =
    Ok (map (fun p => zodi_fits w k !!! p)
            (filter (fun p => p ∈ pixel_inds)
                    (seq 0 (length (zodi_fits w k))))).
Proof.
  intros Hin. unfold load_zodi_orbit.
  rewrite decide_True by done. f_equal.
  apply omap_if_filter. intros i Hi. apply elem_of_seq in Hi.
  rewrite put_ones_lookup. unfold Np.zeros. rewrite length_replicate.
  destruct (decide (i ∈ pixel_inds)) as [Hmem | Hmem].
  - rewrite decide_True by (split; [done | lia]). cbn.
    destruct (lookup_lt_is_Some_2 (zodi_fits w k) i) as [v Hv]; [lia |].
    by rewrite Hv, (list_lookup_total_correct _ _ _ Hv).
  - rewrite decide_False by tauto.
    rewrite lookup_replicate_2 by lia. done.
Qed.

(** X4: [load_zodi_orbit] fails with IndexError when a pixel index lies
    beyond the template map; otherwise it returns the template at the
    pixels of the orbit in ascending pixel order, each pixel once, whatever
    the order and multiplicity of the pixel indices in the CSV file; this is
    the template sample by sample when the pixel indices of the file are
    strictly ascending. *)
Theorem load_zodi_orbit_pixel_order k (pixel_inds : list nat) :
  let mapdata := zodi_fits w k in
  (Exists (fun p => length mapdata <= p)%nat pixel_inds ->
   load_zodi_orbit w k pixel_inds = Raise IndexError) /\
  (Forall (fun p => p < length mapdata)%nat pixel_inds ->
   load_zodi_orbit w k pixel_inds =
     Ok (map (fun p => mapdata !!! p)
             (filter (fun p => p ∈ pixel_inds) (seq 0 (length mapdata)))) /\
   (StronglySorted lt pixel_inds ->
    load_zodi_orbit w k pixel_inds =
      Ok (map (fun p => mapdata !!! p) pixel_inds))).
Proof.
  intros mapdata.
  pose proof (load_zodi_orbit_ok k pixel_inds) as Hok. fold mapdata in Hok.
  split.
  - intros Hout. unfold load_zodi_orbit. fold mapdata.
    rewrite decide_False; [done |].
    intros Hin. apply Exists_exists in Hout as (p & Hp & Hge).
    rewrite Forall_forall in Hin. specialize (Hin p Hp). lia.
  - intros Hin. split; [by apply Hok |].
    intros Hsorted. rewrite Hok by done. do 2 f_equal.
    apply filter_seq_ascending; [done |].
    apply (Forall_impl _ _ _ Hin). intros p Hp. lia.
Qed.

End Masks.

Lemma load_zodi_orbit_pixel_order_witness :
  load_zodi_orbit Demo.sky3 0 [2; 0]%nat =
  Ok [Fin (Q2Qc 10); Fin (Q2Qc 30)].
Proof.
  rewrite (proj1 (proj2 (load_zodi_orbit_pixel_order Demo.sky3 0 [2; 0]%nat)
                        ltac:(by repeat constructor))).
  by compute_done.
Defined.

(** *** Which template value a sample meets *)

Section Pairing.

Variable w : world.

Lemma StronglySorted_lt_NoDup (l : list nat) : StronglySorted lt l -> NoDup l.
Proof.
  induction 1 as [| x l _ IH Hlt]; constructor; [| done].
  intros Hin. rewrite Forall_forall in Hlt. specialize (Hlt x Hin). lia.
Qed.

Lemma pixel_inds_masked_sublist k :
  pixel_inds_masked w k `sublist_of` map hp_pixel_index (orbit_csv w k).
Proof.
  rewrite pixel_inds_masked_rows. apply fmap_sublist, sublist_filter.
Qed.

(** On a file in strictly ascending pixel order the masked template holds,
    sample by sample, the template value at the pixel of the sample. *)
Lemma zodi_data_masked_ascending k :
  StronglySorted lt (map hp_pixel_index (orbit_csv w k)) ->
  Forall (fun q => q < length (zodi_fits w k))%nat
         (map hp_pixel_index (orbit_csv w k)) ->
  zodi_data_masked w k =
  Ok (map (fun r => zodi_fits w k !!! hp_pixel_index r) (masked_rows w k)).
Proof.
  intros Hsorted Hin. unfold zodi_data_masked, load_orbit_data.
  rewrite load_zodi_orbit_ok by done.
  rewrite filter_seq_ascending;
    [| done | apply (Forall_impl _ _ _ Hin); intros q Hq; lia].
  cbn [mbind result_bind]. f_equal.
  apply (drop_entries_column w
           (fun r => zodi_fits w k !!! hp_pixel_index r));
    [by rewrite !length_map |].
  intros i r Hr. by rewrite !list_lookup_fmap, Hr.
Qed.


End Pairing.



(** *** What the guards of the two guarded steps do *)

Section Guards.

Variable w : world.





End Guards.


(** *** What [add_file] leaves alone *)

Lemma iadd_at_frame a idx vals a' :
  Np.iadd_at a idx vals = Ok a' ->
  length a' = length a /\ forall q, q ∉ idx -> a' !! q = a !! q.
Proof.
  unfold Np.iadd_at. intros Ha'.
  case_decide; [done |].
  destruct (Np.gather a idx) as [old |]; [| done].
  cbn [mbind result_bind] in Ha'.
  destruct (Np.broadcast2 fadd old vals) as [new |]; [| done].
  cbn [mbind result_bind] in Ha'.
  case_decide; [| done]. injection Ha' as <-.
  split; [apply length_put |]. intros q Hq. by apply put_lookup_notin.
Qed.

Section Frame.

Variable w : world.

Lemma masked_pixel_not_excluded k q :
  q ∈ pixel_inds_masked w k ->
  ~ excluded w q /\ q ∈ map hp_pixel_index (orbit_csv w k).
Proof.
  rewrite pixel_inds_masked_rows. intros Hq.
  apply list_elem_of_fmap in Hq as (r & -> & Hr).
  unfold masked_rows in Hr. apply list_elem_of_filter in Hr as [Hex Hr].
  split; [done |]. apply list_elem_of_fmap. by exists r.
Qed.

Lemma add_file_outcome self k gain offset self' :
  add_file w self k gain offset = Ok self' ->
  self' = set_buffers (numerator self') (denominator self') self /\
  length (numerator self') = length (numerator self) /\
  length (denominator self') = length (denominator self) /\
  forall q,
    q ∉ pixel_inds_masked w k ->
    numerator self' !! q = numerator self !! q /\
    denominator self' !! q = denominator self !! q.
Proof.
  unfold add_file. intros Hadd.
  destruct (accumulates w k gain).
  2:{ injection Hadd as <-. by destruct self. }
  destruct (zodi_data_masked w k) as [zs |]; [| done].
  cbn [mbind result_bind] in Hadd.
  destruct (Np.broadcast2 fsub _ zs) as [zs_data |]; [| done].
  cbn [mbind result_bind] in Hadd.
  destruct (divide_out (floor_negative zs_data) _ _) as [num_add |]; [| done].
  cbn [mbind result_bind] in Hadd.
  destruct (Np.iadd_at (numerator self) _ num_add) as [num' |] eqn:Hnum;
    [| done].
  cbn [mbind result_bind] in Hadd.
  destruct (divide_out [one] _ _) as [den_add |]; [| done].
  cbn [mbind result_bind] in Hadd.
  destruct (Np.iadd_at (denominator self) _ den_add) as [den' |] eqn:Hden;
    [| done].
  injection Hadd as <-. cbn [set_buffers numerator denominator].
  apply iadd_at_frame in Hnum as [Hln Hnum].
  apply iadd_at_frame in Hden as [Hld Hden].
  split; [done |]. split; [done |]. split; [done |].
  intros q Hq. split; [by apply Hnum | by apply Hden].
Qed.

(** X5: whenever [add_file] returns, it has changed nothing but the two
    buffers, both buffers have kept their length, and their entries at every
    excluded pixel and at every pixel the orbit does not visit are what
    they were. *)
Theorem add_file_frame self k gain offset self' :
  add_file w self k gain offset = Ok self' ->
  self' = set_buffers (numerator self') (denominator self') self /\
  length (numerator self') = length (numerator self) /\
  length (denominator self') = length (denominator self) /\
  forall q,
    excluded w q \/ q ∉ map hp_pixel_index (orbit_csv w k) ->
    numerator self' !! q = numerator self !! q /\
    denominator self' !! q = denominator self !! q.
Proof.
  intros Hadd.
  apply add_file_outcome in Hadd as (Hrest & Hln & Hld & Hkeep).
  split; [done |]. split; [done |]. split; [done |].
  intros q Hq. apply Hkeep.
  intros Hin. apply masked_pixel_not_excluded in Hin as [? ?]. tauto.
Qed.

End Frame.

Lemma add_file_frame_witness :
  numerator Demo.added3 !! 1%nat = numerator (init Demo.sky3) !! 1%nat /\
  denominator Demo.added3 !! 1%nat = denominator (init Demo.sky3) !! 1%nat.
Proof.
  apply (add_file_frame Demo.sky3 (init Demo.sky3) 0 one zero
                        Demo.added3 ltac:(by compute_done)).
  left. by compute_done.
Defined.

(** *** The order of accumulation *)

Import Derived.

Lemma fadd_comm x y : fadd x y = fadd y x.
Proof. destruct x, y; cbn; try done. f_equal. ring. Qed.

Lemma fadd_assoc x y z : fadd (fadd x y) z = fadd x (fadd y z).
Proof. destruct x, y, z; cbn; try done. f_equal. ring. Qed.

Lemma bump_comm u v x : bump u (bump v x) = bump v (bump u x).
Proof.
  destruct u as [u |], v as [v |]; cbn; try done.
  by rewrite !fadd_assoc, (fadd_comm v u).
Qed.

Lemma addend_at_notin idx vals q : q ∉ idx -> addend_at idx vals q = None.
Proof.
  revert vals. induction idx as [| i idx IH]; intros [| v vals] Hq; try done.
  apply not_elem_of_cons in Hq as [Hqi Hq]. cbn.
  rewrite decide_False by done. by apply IH.
Qed.

(** Scattering sums over distinct pixels, pixel by pixel. *)
Lemma put_add_lookup a idx vals q :
  NoDup idx ->
  length vals = length idx ->
  Forall (fun i => i < length a)%nat idx ->
  Np.put a idx (zip_with fadd (map (fun i => a !!! i) idx) vals) !! q =
  bump (addend_at idx vals q) <$> a !! q.
Proof.
  intros Hnd Hlen Hin.
  destruct (decide (q ∈ idx)) as [Hq | Hq].
  2:{ rewrite put_lookup_notin, addend_at_notin by done.
      by destruct (a !! q). }
  apply list_elem_of_lookup in Hq as [i Hi].
  assert (Hiv : is_Some (vals !! i)).
  { apply lookup_lt_is_Some. rewrite Hlen. by eapply lookup_lt_Some. }
  destruct Hiv as [v Hv].
  assert (Hqa : (q < length a)%nat).
  { rewrite Forall_lookup in Hin. by eapply Hin. }
  destruct (lookup_lt_is_Some_2 a q Hqa) as [x Hx].
  rewrite (put_lookup_nodup _ _ _ i q (fadd x v)); [| done | done | | done].
  2:{ rewrite lookup_zip_with, list_lookup_fmap, Hi, Hv. cbn.
      by rewrite (list_lookup_total_correct _ _ _ Hx). }
  assert (Hadd : addend_at idx vals q = Some v).
  { clear Hin Hqa Hx x. revert vals i Hlen Hi Hv.
    induction idx as [| j idx IH]; intros vals i Hlen Hi Hv; [done |].
    destruct vals as [| u vals]; [done |].
    apply NoDup_cons in Hnd as [Hj Hnd].
    destruct i as [| i]; cbn in Hi, Hv |- *.
    - injection Hi as ->. injection Hv as ->. by rewrite decide_True.
    - rewrite decide_False.
      + apply (IH Hnd vals i); [by injection Hlen | done | done].
      + intros ->. apply Hj. by eapply list_elem_of_lookup_2. }
  by rewrite Hx, Hadd.
Qed.

Section Order.

Variable w : world.

(** The addends of orbit [k]: they depend on the orbit and its
    calibration, not on the buffers. *)
Lemma add_file_pointwise self k gain offset :
  accumulable w self k gain ->
  exists nums dens N D,
    add_file w self k gain offset = Ok (set_buffers N D self) /\
    length N = length (numerator self) /\
    length D = length (denominator self) /\
    (forall q, N !! q =
               bump (addend_at (pixel_inds_masked w k) nums q)
                 <$> numerator self !! q) /\
    (forall q, D !! q =
               bump (addend_at (pixel_inds_masked w k) dens q)
                 <$> denominator self !! q) /\
    (forall self2, accumulable w self2 k gain ->
       exists N2 D2,
         add_file w self2 k gain offset = Ok (set_buffers N2 D2 self2) /\
         length N2 = length (numerator self2) /\
         length D2 = length (denominator self2) /\
         (forall q, N2 !! q =
                    bump (addend_at (pixel_inds_masked w k) nums q)
                      <$> numerator self2 !! q) /\
         (forall q, D2 !! q =
                    bump (addend_at (pixel_inds_masked w k) dens q)
                      <$> denominator self2 !! q)).
Proof.
  intros (Hacc & (zs & Hzs & Hlen) & Hne & Hnd & Hin).
  exists (zip_with (numerator_term gain offset) (masked_rows w k) zs),
         (map (denominator_term gain) (masked_rows w k)).
  assert (Hgen : forall s,
    Forall (fun q => q < length (numerator s) /\ q < length (denominator s))%nat
           (pixel_inds_masked w k) ->
    exists N2 D2,
      add_file w s k gain offset = Ok (set_buffers N2 D2 s) /\
      length N2 = length (numerator s) /\
      length D2 = length (denominator s) /\
      (forall q, N2 !! q =
         bump (addend_at (pixel_inds_masked w k)
                 (zip_with (numerator_term gain offset) (masked_rows w k) zs) q)
           <$> numerator s !! q) /\
      (forall q, D2 !! q =
         bump (addend_at (pixel_inds_masked w k)
                 (map (denominator_term gain) (masked_rows w k)) q)
           <$> denominator s !! q)).
  { intros s Hs. rewrite pixel_inds_masked_rows in Hs, Hnd |- *.
    apply Forall_and in Hs as [Hs1 Hs2].
    eexists _, _. split; [by apply add_file_ok |].
    split; [apply length_put |]. split; [apply length_put |].
    split; intros q; apply put_add_lookup; try done.
    - rewrite length_zip_with, length_map. lia.
    - by rewrite !length_map. }
  destruct (Hgen self Hin) as (N & D & HND).
  exists N, D. repeat (split; [apply HND |]).
  intros self2 (_ & _ & _ & _ & Hin2). by apply Hgen.
Qed.

Lemma accumulable_set_buffers self k gain N D :
  accumulable w self k gain ->
  length N = length (numerator self) ->
  length D = length (denominator self) ->
  accumulable w (set_buffers N D self) k gain.
Proof.
  intros (Hacc & Hzs & Hne & Hnd & Hin) HN HD.
  repeat (split; [done |]). cbn [set_buffers numerator denominator].
  by rewrite HN, HD.
Qed.

(** X6: in exact arithmetic, accumulation does not depend on the order of
    the orbits.  For two orbits that can both be accumulated into the
    buffers, adding orbit [j] and then orbit [k] returns the very state
    that adding [k] and then [j] returns, also where the two orbits share
    pixels.  (On binary64 numbers the sums at a shared pixel can differ in
    the last place, addition being rounded.) *)
Theorem add_file_order_irrelevant self j k gain_j offset_j gain_k offset_k :
  accumulable w self j gain_j ->
  accumulable w self k gain_k ->
  exists s,
    (s1 ← add_file w self j gain_j offset_j;
     add_file w s1 k gain_k offset_k) = Ok s /\
    (s2 ← add_file w self k gain_k offset_k;
     add_file w s2 j gain_j offset_j) = Ok s.
Proof.
  intros Hj Hk.
  destruct (add_file_pointwise self j gain_j offset_j Hj)
    as (nj & dj & N1 & D1 & Hadd1 & HlN1 & HlD1 & HN1 & HD1 & Hgen_j).
  destruct (add_file_pointwise self k gain_k offset_k Hk)
    as (nk & dk & N2 & D2 & Hadd2 & HlN2 & HlD2 & HN2 & HD2 & Hgen_k).
  destruct (Hgen_k (set_buffers N1 D1 self))
    as (N12 & D12 & Hadd12 & _ & _ & HN12 & HD12);
    [by apply accumulable_set_buffers |].
  destruct (Hgen_j (set_buffers N2 D2 self))
    as (N21 & D21 & Hadd21 & _ & _ & HN21 & HD21);
    [by apply accumulable_set_buffers |].
  cbn [set_buffers numerator denominator] in HN12, HD12, HN21, HD21.
  exists (set_buffers N12 D12 (set_buffers N1 D1 self)).
  rewrite Hadd1, Hadd2. cbn [mbind result_bind].
  rewrite Hadd12, Hadd21. split; [done |]. f_equal.
  assert (N21 = N12) as ->.
  { apply list_eq. intros q. rewrite HN21, HN12, HN1, HN2.
    destruct (numerator self !! q) as [x |]; [| done].
    cbn. f_equal. apply bump_comm. }
  assert (D21 = D12) as ->.
  { apply list_eq. intros q. rewrite HD21, HD12, HD1, HD2.
    destruct (denominator self !! q) as [x |]; [| done].
    cbn. f_equal. apply bump_comm. }
  done.
Qed.

End Order.

Lemma add_file_order_irrelevant_witness :
  exists s,
    (s1 ← add_file Demo.sky4 (init Demo.sky4) 0 (Fin (Q2Qc 3)) zero;
     add_file Demo.sky4 s1 1 (Fin (Q2Qc 2)) one) = Ok s /\
    (s2 ← add_file Demo.sky4 (init Demo.sky4) 1 (Fin (Q2Qc 2)) one;
     add_file Demo.sky4 s2 0 (Fin (Q2Qc 3)) zero) = Ok s.
Proof.
  apply add_file_order_irrelevant;
    (split; [by vm_compute |];
     split; [eexists; split; [by vm_compute | done] |];
     split; [by compute_done |];
     split; by compute_done).
Defined.

(** *** One orbit, from accumulation to the map *)

Section SingleOrbit.

Variable w : world.

(** One orbit accumulated on a pixel whose two buffer entries are zero,
    then normalized: the map at the pixel of the masked sample at position
    [i], in terms of the template value at position [i]. *)
Lemma single_orbit_map_at self k (g o raw unc t : Qc) zs i p :
  g <> 0 ->
  accumulable w self k (Fin g) ->
  zodi_data_masked w k = Ok zs ->
  masked_rows w k !! i = Some (Sample (Fin raw) (Fin unc) p) ->
  zs !! i = Some (Fin t) ->
  numerator self !! p = Some zero ->
  denominator self !! p = Some zero ->
  length (numerator self) = length (denominator self) ->
  exists s1 s2,
    add_file w self k (Fin g) (Fin o) = Ok s1 /\
    normalize s1 = Ok s2 /\
    fsm s2 !! p =
      Some (Fin (if decide (unc = 0) then 0
                 else qmax ((raw - o) / g - t) 0)) /\
    unc_fsm s2 !! p =
      Some (Fin (if decide (unc = 0) then 0
                 else (unc / Qcabs g) * (unc / Qcabs g))).
Proof.
  intros Hg (Hacc & (zs' & Hzs' & Hlen) & Hne & Hnd & Hin) Hzs Hrow Ht
         Hnum Hden Hbuf.
  rewrite Hzs in Hzs'. injection Hzs' as <-.
  rewrite pixel_inds_masked_rows in Hnd, Hin.
  apply Forall_and in Hin as [Hin1 Hin2].
  pose proof (add_file_ok w self k (Fin g) (Fin o) zs Hacc Hzs Hlen Hne
                Hin1 Hin2) as Hadd.
  match type of Hadd with _ = Ok ?s => remember s as s1 eqn:Hs1 end.
  exists s1.
  assert (Hp : map hp_pixel_index (masked_rows w k) !! i = Some p)
    by (by rewrite list_lookup_fmap, Hrow).
  assert (HN : numerator s1 !! p =
               Some (fadd zero (numerator_term (Fin g) (Fin o)
                                  (Sample (Fin raw) (Fin unc) p) (Fin t)))).
  { subst s1. cbn [set_buffers numerator].
    apply (put_lookup_nodup _ _ _ i); [done | done | | by eapply lookup_lt_Some].
    rewrite lookup_zip_with, list_lookup_fmap, Hp. cbn.
    rewrite (list_lookup_total_correct _ _ _ Hnum).
    by rewrite lookup_zip_with, Hrow, Ht. }
  assert (HD : denominator s1 !! p =
               Some (fadd zero (denominator_term (Fin g)
                                  (Sample (Fin raw) (Fin unc) p)))).
  { subst s1. cbn [set_buffers denominator].
    apply (put_lookup_nodup _ _ _ i); [done | done | | by eapply lookup_lt_Some].
    rewrite lookup_zip_with, !list_lookup_fmap, Hrow. cbn.
    by rewrite (list_lookup_total_correct _ _ _ Hden). }
  assert (Hl1 : length (numerator s1) = length (denominator s1)).
  { subst s1. cbn [set_buffers numerator denominator].
    by rewrite !length_put. }
  rewrite numerator_term_fin in HN by done.
  rewrite denominator_term_fin in HD by done.
  unfold zero in HN, HD. cbn [fadd] in HN, HD.
  rewrite Qcplus_0_l in HN, HD.
  clear Hs1. eexists. split; [done |]. unfold normalize.
  rewrite (divide_out_same (numerator s1)), divide_out_scalar by done.
  cbn [mbind result_bind]. split; [done |].
  cbn [set_maps fsm unc_fsm].
  rewrite lookup_zip_with, list_lookup_fmap, lookup_zip_with, HN, HD. cbn.
  unfold Np.divide_where. rewrite fne_zero_fin.
  destruct (decide (unc = 0)) as [-> | Hunc].
  - by rewrite bool_decide_false by (intros Hc; by apply Hc).
  - assert (Habs : Qcabs g <> 0) by by apply Qcabs_ne_0.
    assert (Hcu : unc / Qcabs g <> 0) by by apply Qcdiv_ne_0.
    assert (Hsq : unc / Qcabs g * (unc / Qcabs g) <> 0) by by apply Qcmult_ne_0.
    assert (Hd : 1 / (unc / Qcabs g * (unc / Qcabs g)) <> 0).
    { apply Qcdiv_ne_0; [| done]. by compute_done. }
    rewrite bool_decide_true by done.
    unfold one. rewrite !fdiv_fin by done.
    split; do 2 f_equal; field; done.
Qed.

(** X7: in exact arithmetic, for an orbit whose samples come in strictly
    ascending pixel order: accumulating the orbit on a pixel whose two
    buffer entries are zero and normalizing gives, at the pixel of a finite
    masked sample, the floored residual [max((raw - o)/g - t, 0)] against
    the template value [t] at that pixel as map value and the squared
    calibrated uncertainty [(unc/|g|)^2] as uncertainty-map value, and zero
    for both when the raw uncertainty of the sample is zero. *)
Theorem single_orbit_map self k (g o raw unc t : Qc) i p :
  g <> 0 ->
  accumulates w k (Fin g) = true ->
  StronglySorted lt (map hp_pixel_index (orbit_csv w k)) ->
  Forall (fun q => q < length (zodi_fits w k))%nat
         (map hp_pixel_index (orbit_csv w k)) ->
  Forall (fun q => q < length (numerator self) /\
                   q < length (denominator self))%nat
         (pixel_inds_masked w k) ->
  masked_rows w k !! i = Some (Sample (Fin raw) (Fin unc) p) ->
  zodi_fits w k !! p = Some (Fin t) ->
  numerator self !! p = Some zero ->
  denominator self !! p = Some zero ->
  length (numerator self) = length (denominator self) ->
  exists s1 s2,
    add_file w self k (Fin g) (Fin o) = Ok s1 /\
    normalize s1 = Ok s2 /\
    fsm s2 !! p =
      Some (Fin (if decide (unc = 0) then 0
                 else qmax ((raw - o) / g - t) 0)) /\
    unc_fsm s2 !! p =
      Some (Fin (if decide (unc = 0) then 0
                 else (unc / Qcabs g) * (unc / Qcabs g))).
Proof.
  intros Hg Hacc Hsorted Hfits Hin Hrow Ht Hnum Hden Hbuf.
  pose proof (zodi_data_masked_ascending w k Hsorted Hfits) as Hzs.
  apply (single_orbit_map_at self k g o raw unc t
           (map (fun r => zodi_fits w k !!! hp_pixel_index r)
                (masked_rows w k)) i p);
    try done.
  - split; [done |]. split.
    { eexists. split; [exact Hzs | by rewrite length_map]. }
    split; [intros E; by rewrite E in Hrow |]. split; [| done].
    eapply sublist_NoDup; [| apply pixel_inds_masked_sublist].
    by apply StronglySorted_lt_NoDup.
  - rewrite list_lookup_fmap, Hrow.
    cbn [fmap option_fmap option_map hp_pixel_index].
    by rewrite (list_lookup_total_correct _ _ _ Ht).
Qed.

End SingleOrbit.

Lemma single_orbit_map_witness :
  exists s1 s2,
    add_file Demo.sky (init Demo.sky) 0 (Fin (Q2Qc 3)) (Fin 0) = Ok s1 /\
    normalize s1 = Ok s2 /\
    fsm s2 !! 1%nat = Some (Fin (Q2Qc (1 # 3))) /\
    unc_fsm s2 !! 1%nat = Some (Fin (Q2Qc (1 # 9))).
Proof.
  destruct (single_orbit_map Demo.sky (init Demo.sky) 0
              (Q2Qc 3) 0 (Q2Qc 4) 1 1 1 1)
    as (s1 & s2 & Hadd & Hnorm & Hm & Hu);
    [by compute_done | by vm_compute
    | repeat constructor | repeat constructor | by compute_done
    | by vm_compute | by vm_compute | by vm_compute | by vm_compute
    | by vm_compute |].
  exists s1, s2. rewrite Hm, Hu.
  split; [done |]. split; [done |]. split; by compute_done.
Defined.

(** *** An orbit that the mask removes entirely *)

Section FullyMasked.

Variable w : world.
Variable minimize :
  (float64 * float64 -> float64) -> float64 * float64 -> float64 * float64.

Lemma omap_all_None {A B} (h : A -> option B) (l : list A) :
  (forall x, x ∈ l -> h x = None) -> omap h l = [].
Proof.
  induction l as [| x l IH]; intros Hh; [done |].
  change (omap h (x :: l))
    with (match h x with Some y => y :: omap h l | None => omap h l end).
  rewrite (Hh x) by left. apply IH. intros y Hy. apply Hh. by right.
Qed.

(** With every row excluded, masking empties any column that is not
    longer than the file. *)
Lemma drop_entries_all_masked {A} k (col : list A) :
  masked_rows w k = [] ->
  (length col <= length (orbit_csv w k))%nat ->
  drop_entries (entries_to_mask w (map hp_pixel_index (orbit_csv w k))) col
  = [].
Proof.
  intros Hrows Hlen. unfold drop_entries. apply omap_all_None.
  intros i Hi. apply elem_of_seq in Hi.
  rewrite decide_True; [done |].
  apply elem_of_entries_to_mask.
  destruct (lookup_lt_is_Some_2 (orbit_csv w k) i) as [r Hr]; [lia |].
  exists (hp_pixel_index r). split; [by rewrite list_lookup_fmap, Hr |].
  destruct (decide (excluded w (hp_pixel_index r))) as [He | He]; [done |].
  assert (Hin : r ∈ masked_rows w k).
  { unfold masked_rows. apply list_elem_of_filter. split; [done |].
    by eapply list_elem_of_lookup_2. }
  rewrite Hrows in Hin. by apply elem_of_nil in Hin.
Qed.

Lemma length_filter_elem_of (idx : list nat) n :
  (length (filter (fun p => p ∈ idx) (seq 0 n)) <= length idx)%nat.
Proof.
  apply submseteq_length, NoDup_submseteq.
  - apply NoDup_filter, NoDup_seq.
  - intros p Hp. by apply list_elem_of_filter in Hp as [Hp _].
Qed.

(** With distinct pixel indices inside the template map, the template
    array of an orbit is as long as its file. *)
Lemma length_load_zodi_orbit k zd :
  NoDup (map hp_pixel_index (orbit_csv w k)) ->
  load_zodi_orbit w k (map hp_pixel_index (orbit_csv w k)) = Ok zd ->
  length zd = length (orbit_csv w k).
Proof.
  intros Hnd Hzd.
  assert (Hin : Forall (fun p => p < length (zodi_fits w k))%nat
                       (map hp_pixel_index (orbit_csv w k))).
  { unfold load_zodi_orbit in Hzd. by case_decide. }
  rewrite load_zodi_orbit_ok in Hzd by done. injection Hzd as <-.
  rewrite length_map, <- (length_map hp_pixel_index (orbit_csv w k)).
  apply Permutation_length, NoDup_Permutation;
    [apply NoDup_filter, NoDup_seq | done |].
  intros p. rewrite list_elem_of_filter, elem_of_seq. split; [tauto |].
  intros Hp. split; [done |].
  rewrite Forall_forall in Hin. specialize (Hin p Hp). lia.
Qed.

(** The plotting blocks go through when the masked template is as long as
    the fitted data and the template array as long as the file. *)
Lemma fit_plots_ok k fitted zs zd gain offset :
  length zs = length fitted ->
  load_zodi_orbit w k (map hp_pixel_index (orbit_csv w k)) = Ok zd ->
  length zd = length (orbit_csv w k) ->
  fit_plots w k fitted zs gain offset = Ok tt.
Proof.
  intros Hzs Hzd Hlen. unfold fit_plots, load_orbit_data, plot.
  rewrite !length_seq, Hzd.
  rewrite (decide_True (P := length fitted = length zs)) by done.
  cbn [mbind result_bind].
  rewrite (broadcast2_same_length fsub zs) by by rewrite length_map.
  cbn [mbind result_bind].
  rewrite decide_True by (rewrite length_zip_with, length_map; lia).
  cbn [mbind result_bind].
  rewrite broadcast2_same_length by by rewrite !length_map.
  cbn [mbind result_bind].
  rewrite decide_True; [done |].
  rewrite length_zip_with, !length_map. lia.
Qed.

(** X8: an orbit all of whose samples are masked goes through an outer
    iteration without effect on the map.  Where its pixel indices are
    distinct, its template loads and its slot [k] exists in the three
    per-orbit arrays, [fit_orbit] makes no call to the minimizer and stores
    gain 0, offset 0 and size 0 for it, and accumulating the orbit with what
    was stored returns the state unchanged. *)
Theorem fully_masked_orbit self k :
  masked_rows w k = [] ->
  NoDup (map hp_pixel_index (orbit_csv w k)) ->
  Forall (fun p => p < length (zodi_fits w k))%nat
         (map hp_pixel_index (orbit_csv w k)) ->
  (k < length (gains self))%nat ->
  (k < length (offsets self))%nat ->
  (k < length (orbit_sizes self))%nat ->
  iter self = 0%nat \/
  (exists prev, fsm_prev self = Some prev /\
                Forall (fun p => p < length prev)%nat
                       (map hp_pixel_index (orbit_csv w k))) ->
  exists self',
    fit_orbit w minimize self k = FitM [] (Ok self') /\
    gains self' !! k = Some zero /\
    offsets self' !! k = Some zero /\
    orbit_sizes self' !! k = Some zero /\
    add_file w self' k zero zero = Ok self'.
Proof.
  intros Hrows Hnd Hzodi Hg Ho Hs Hiter.
  assert (Hdata : orbit_data_masked w k = [])
    by (by rewrite orbit_data_masked_rows, Hrows).
  assert (Huncs : orbit_uncs_masked w k = [])
    by (by rewrite orbit_uncs_masked_rows, Hrows).
  assert (Hplots : forall gain offset,
            fit_plots w k [] [] gain offset = Ok tt).
  { intros gain offset.
    destruct (load_zodi_orbit w k (map hp_pixel_index (orbit_csv w k)))
      as [zd |] eqn:Hzd; [| by rewrite load_zodi_orbit_ok in Hzd].
    apply (fit_plots_ok k [] [] zd); [done | done |].
    by apply length_load_zodi_orbit. }
  assert (Hzs : zodi_data_masked w k = Ok []).
  { unfold zodi_data_masked, load_orbit_data.
    rewrite load_zodi_orbit_ok by done. cbn [mbind result_bind]. f_equal.
    apply drop_entries_all_masked; [done |].
    rewrite length_map.
    etrans; [apply length_filter_elem_of |]. by rewrite length_map. }
  assert (Hstore : exists self',
    store_fit k zero zero 0 self = Ok self' /\
    gains self' !! k = Some zero /\ offsets self' !! k = Some zero /\
    orbit_sizes self' !! k = Some zero).
  { unfold store_fit, setitem. rewrite !decide_True by done.
    cbn [mbind result_bind]. eexists. split; [done |]. cbn.
    by rewrite !list_lookup_insert_eq. }
  destruct Hstore as (self' & Hstore & Hg' & Ho' & Hs').
  exists self'. split; [| split; [done | split; [done | split; [done |]]]].
  - unfold fit_orbit. destruct Hiter as [H0 | (prev & Hprev & Hin)].
    + rewrite decide_True by done. unfold fit_initial_orbit.
      rewrite Hzs, bind_lift_ok, Hdata, Huncs.
      unfold IterativeFitter.iterate_fit. cbn [IterativeFitter.raw_data length].
      rewrite decide_False by lia. rewrite bind_ret. cbn [fst snd length].
      by rewrite Hplots, bind_lift_ok, Hstore.
    + destruct (decide (iter self = 0)%nat) as [H0 | H0].
      { unfold fit_initial_orbit.
        rewrite Hzs, bind_lift_ok, Hdata, Huncs.
        unfold IterativeFitter.iterate_fit.
        cbn [IterativeFitter.raw_data length].
        rewrite decide_False by lia. rewrite bind_ret. cbn [fst snd length].
        by rewrite Hplots, bind_lift_ok, Hstore. }
      unfold fit_adjusted_orbit. rewrite Hzs, bind_lift_ok.
      assert (Hadj : orbit_data_adj w self k = Ok []).
      { unfold orbit_data_adj, load_orbit_data. rewrite Hprev.
        cbn [of_option mbind result_bind].
        rewrite gather_ok by done. cbn [mbind result_bind].
        destruct (lookup_lt_is_Some_2 (gains self) k Hg) as [g Hgk].
        rewrite Hgk. cbn [of_option mbind result_bind].
        rewrite drop_entries_all_masked, Hdata;
          [done | done | by rewrite !length_map]. }
      rewrite Hadj, bind_lift_ok, Huncs.
      unfold IterativeFitter.iterate_fit.
      cbn [IterativeFitter.raw_data length].
      rewrite decide_False by lia. rewrite bind_ret. cbn [fst snd length].
      by rewrite Hplots, bind_lift_ok, Hstore.
  - unfold add_file. by rewrite accumulates_zero_gain.
Qed.

End FullyMasked.

Lemma fully_masked_orbit_witness :
  exists self',
    fit_orbit Demo.sky3 Demo.minimize
              (set_orbit_sizes (Np.zeros 2)
                 (set_offsets (Np.zeros 2)
                    (set_gains (Np.zeros 2) (init Demo.sky3)))) 1
      = FitM [] (Ok self') /\
    gains self' !! 1%nat = Some zero /\
    offsets self' !! 1%nat = Some zero /\
    orbit_sizes self' !! 1%nat = Some zero /\
    add_file Demo.sky3 self' 1 zero zero = Ok self'.
Proof.
  apply fully_masked_orbit;
    [by vm_compute | by compute_done
    | by repeat constructor | cbn; lia | cbn; lia | cbn; lia | by left].
Defined.

(** *** Signs *)

Import FitterMore.

Lemma nonneg_finite x : nonneg x -> finite x.
Proof. by destruct x. Qed.

Lemma fadd_nonneg x y : nonneg x -> nonneg y -> nonneg (fadd x y).
Proof.
  destruct x as [a | | |], y as [b | | |]; try done.
  cbn. apply Qcplus_nonneg_nonneg.
Qed.

Lemma Qcsquare_pos (c : Qc) : c <> 0 -> 0 < c * c.
Proof.
  intros Hc. destruct (Qcle_lt_or_eq _ _ (Qcsquare_nonneg c)) as [? | Heq];
    [done |].
  symmetry in Heq. by destruct (Qcmult_integral _ _ Heq).
Qed.

Lemma iadd_at_Forall (P : float64 -> Prop) a idx vals a' :
  (forall x y, P x -> P y -> P (fadd x y)) ->
  Np.iadd_at a idx vals = Ok a' ->
  Forall P a -> Forall P vals -> Forall P a'.
Proof.
  intros Hadd Ha' Ha Hvals. unfold Np.iadd_at in Ha'.
  case_decide; [done |].
  destruct (Np.gather a idx) as [old |] eqn:Hold; [| done].
  cbn [mbind result_bind] in Ha'.
  destruct (Np.broadcast2 fadd old vals) as [new |] eqn:Hnew; [| done].
  cbn [mbind result_bind] in Ha'.
  case_decide; [| done]. injection Ha' as <-.
  apply Forall_put; [done |].
  apply (broadcast2_Forall _ P P P _ _ _ Hnew);
    [by eapply gather_Forall | done | done].
Qed.

Lemma divide_out_Forall (P : float64 -> Prop)
    (Q : float64 * float64 -> Prop) (R : float64 -> Prop) x y c r :
  (forall a yc, P a -> Q yc -> R (Np.divide_where a yc.1 yc.2)) ->
  divide_out x y c = Ok r ->
  Forall P x -> Forall Q (zip y c) -> Forall R r.
Proof.
  intros HR Hr Hx Hyc. unfold divide_out in Hr.
  destruct (Np.broadcast2 _ x (zip y c)) as [r' |] eqn:Hr'; [| done].
  cbn [mbind result_bind] in Hr. case_decide; [| done]. injection Hr as <-.
  by apply (broadcast2_Forall _ _ _ R _ _ _ Hr' Hx Hyc).
Qed.

(** A quotient of a non-negative value by a square, under the guard on
    the root of the square. *)
Lemma divide_where_square_nonneg x (c : Qc) :
  nonneg x -> nonneg (Np.divide_where x (Fin (c * c)) (Fin c)).
Proof.
  intros Hx. unfold Np.divide_where. rewrite fne_zero_fin.
  case_bool_decide as Hc; [| by cbn].
  destruct x as [a | | |]; try done.
  rewrite fdiv_fin by by apply Qcmult_ne_0.
  cbn. apply Qcdiv_nonneg; [done | by apply Qcsquare_pos].
Qed.

Lemma cal_uncs_squares (gain : float64) (us : list float64) :
  finite gain -> gain <> zero -> Forall finite us ->
  Forall (fun yc : float64 * float64 =>
            exists c : Qc, yc = (Fin (c * c), Fin c))
    (zip (map fsquare (map (fun u => fdiv u (fabs gain)) us))
         (map (fun u => fdiv u (fabs gain)) us)).
Proof.
  intros Hg Hg0 Hus. induction Hus as [| u us Hu _ IH]; [constructor |].
  cbn [map zip zip_with]. constructor; [| exact IH].
  destruct gain as [g | | |], u as [a | | |]; try done.
  assert (Habs : Qcabs g <> 0).
  { apply Qcabs_ne_0. intros ->. by apply Hg0. }
  cbn [fabs]. rewrite fdiv_fin, fsquare_fin by done. eauto.
Qed.

Section Signs.

Variable w : world.

Lemma add_file_nonneg self k gain offset self' :
  finite gain -> finite offset ->
  Forall finite_sample (orbit_csv w k) ->
  Forall finite (zodi_fits w k) ->
  Forall nonneg (numerator self) ->
  Forall nonneg (denominator self) ->
  add_file w self k gain offset = Ok self' ->
  Forall nonneg (numerator self') /\ Forall nonneg (denominator self').
Proof.
  intros Hg Ho Hrows Hfits Hnum Hden Hadd. unfold add_file in Hadd.
  destruct (accumulates w k gain) eqn:Hacc; [| by injection Hadd as <-].
  assert (Hg0 : gain <> zero).
  { unfold accumulates, load_orbit_data in Hacc.
    apply andb_prop in Hacc as [_ Hne]. rewrite fne_zero_decide in Hne.
    by apply bool_decide_eq_true in Hne. }
  destruct (zodi_data_masked w k) as [zs |] eqn:Hzs; [| done].
  cbn [mbind result_bind] in Hadd.
  destruct (Np.broadcast2 fsub _ zs) as [zs_data |] eqn:Hzsd; [| done].
  cbn [mbind result_bind] in Hadd.
  destruct (divide_out (floor_negative zs_data) _ _) as [num_add |] eqn:Hna;
    [| done].
  cbn [mbind result_bind] in Hadd.
  destruct (Np.iadd_at (numerator self) _ num_add) as [num' |] eqn:Hnum';
    [| done].
  cbn [mbind result_bind] in Hadd.
  destruct (divide_out [one] _ _) as [den_add |] eqn:Hda; [| done].
  cbn [mbind result_bind] in Hadd.
  destruct (Np.iadd_at (denominator self) _ den_add) as [den' |] eqn:Hden';
    [| done].
  injection Hadd as <-. cbn [set_buffers numerator denominator].
  assert (Hvals : Forall finite (map pixel_value (orbit_csv w k)))
    by (apply Forall_fmap, (Forall_impl _ _ _ Hrows); by intros r [? ?]).
  assert (Huncs : Forall finite (map pixel_unc (orbit_csv w k)))
    by (apply Forall_fmap, (Forall_impl _ _ _ Hrows); by intros r [? ?]).
  assert (Hzsf : Forall finite zs).
  { unfold zodi_data_masked, load_orbit_data in Hzs.
    destruct (load_zodi_orbit w k _) as [zd |] eqn:Hzd; [| done].
    injection Hzs as <-. apply drop_entries_Forall.
    by eapply load_zodi_orbit_finite. }
  assert (Hsq := cal_uncs_squares gain (orbit_uncs_masked w k) Hg Hg0
                   (drop_entries_Forall _ _ _ Huncs)).
  assert (Hterm : forall a (yc : float64 * float64),
            nonneg a -> (exists c : Qc, yc = (Fin (c * c), Fin c)) ->
            nonneg (Np.divide_where a yc.1 yc.2)).
  { intros a yc Ha (c & ->). by apply divide_where_square_nonneg. }
  split.
  - apply (iadd_at_Forall nonneg _ _ _ _ fadd_nonneg Hnum' Hnum).
    apply (divide_out_Forall nonneg _ nonneg _ _ _ _ Hterm Hna); [| done].
    unfold floor_negative. apply Forall_fmap.
    assert (Hzd : Forall finite zs_data).
    { apply (broadcast2_Forall _ finite finite finite _ _ _ Hzsd);
        [| done | by intros [] []].
      apply Forall_fmap.
      assert (Hdm : Forall finite (orbit_data_masked w k))
        by by apply drop_entries_Forall.
      apply (Forall_impl _ _ _ Hdm). intros d Hd. cbn.
      destruct d as [a | | |], offset as [o | | |], gain as [g | | |];
        try done.
      rewrite fsub_fin, fdiv_fin; [done |]. intros ->. by apply Hg0. }
    apply (Forall_impl _ _ _ Hzd). intros z Hz. cbn.
    destruct z as [a | | |]; try done. unfold zero. cbn [flt].
    case_bool_decide as Hlt; [by cbn |]. cbn. by apply Qcnot_lt_le.
  - apply (iadd_at_Forall nonneg _ _ _ _ fadd_nonneg Hden' Hden).
    apply (divide_out_Forall nonneg _ nonneg _ _ _ _ Hterm Hda); [| done].
    by repeat constructor.
Qed.

Lemma normalize_nonneg self :
  Forall nonneg (numerator self) ->
  Forall nonneg (denominator self) ->
  length (numerator self) = length (denominator self) ->
  exists self',
    normalize self = Ok self' /\
    Forall nonneg (fsm self') /\ Forall nonneg (unc_fsm self').
Proof.
  intros Hnum Hden Hlen.
  assert (Hguard :
    Forall (fun yc : float64 * float64 => yc.1 = yc.2 /\ nonneg yc.1)
      (zip (denominator self) (denominator self))).
  { clear Hlen. revert Hden. generalize (denominator self).
    induction 1 as [| d ds Hd _ IH]; [constructor |].
    cbn [zip zip_with]. by constructor. }
  assert (Hterm : forall a (yc : float64 * float64),
            nonneg a -> yc.1 = yc.2 /\ nonneg yc.1 ->
            nonneg (Np.divide_where a yc.1 yc.2)).
  { intros a [y c] Ha [Heq Hy]. cbn in Heq, Hy |- *. subst c.
    unfold Np.divide_where. rewrite fne_zero_decide.
    case_bool_decide as Hne; [| by cbn].
    destruct a as [a | | |], y as [d | | |]; try done.
    assert (Hd : d <> 0) by (intros ->; by apply Hne).
    rewrite fdiv_fin by done. cbn in Ha, Hy |- *.
    apply Qcdiv_nonneg; [done |].
    destruct (Qcle_lt_or_eq _ _ Hy) as [? | Heq]; [done |]. by subst d. }
  pose proof (divide_out_same (numerator self) (denominator self)
                (denominator self) Hlen eq_refl) as Hm.
  pose proof (divide_out_scalar one (denominator self) (denominator self)
                eq_refl) as Hu.
  unfold normalize. rewrite Hm, Hu. cbn [mbind result_bind].
  eexists. split; [done |]. cbn [set_maps fsm unc_fsm]. split.
  - by apply (divide_out_Forall nonneg _ nonneg _ _ _ _ Hterm Hm).
  - apply (divide_out_Forall nonneg _ nonneg _ _ _ _ Hterm Hu); [| done].
    by repeat constructor.
Qed.

(** X9: nothing the coadder accumulates or saves is negative.  With a
    finite gain and offset and finite samples and template, [add_file]
    keeps buffers of non-negative entries non-negative, because residuals
    are floored at zero before they are weighted; and from such buffers
    [normalize] yields a map and an uncertainty map without a negative
    entry. *)
Theorem buffers_and_maps_never_negative self k gain offset :
  finite gain -> finite offset ->
  Forall finite_sample (orbit_csv w k) ->
  Forall finite (zodi_fits w k) ->
  Forall nonneg (numerator self) ->
  Forall nonneg (denominator self) ->
  (forall self',
     add_file w self k gain offset = Ok self' ->
     Forall nonneg (numerator self') /\ Forall nonneg (denominator self')) /\
  (length (numerator self) = length (denominator self) ->
   exists self',
     normalize self = Ok self' /\
     Forall nonneg (fsm self') /\ Forall nonneg (unc_fsm self')).
Proof.
  intros Hg Ho Hrows Hfits Hnum Hden. split.
  - intros self'. by apply add_file_nonneg.
  - by apply normalize_nonneg.
Qed.

End Signs.

Lemma buffers_and_maps_never_negative_witness :
  (Forall nonneg (numerator Demo.added0) /\
   Forall nonneg (denominator Demo.added0)) /\
  exists self',
    normalize (init Demo.sky) = Ok self' /\
    Forall nonneg (fsm self') /\ Forall nonneg (unc_fsm self').
Proof.
  destruct (buffers_and_maps_never_negative Demo.sky (init Demo.sky) 0
              (Fin (Q2Qc 3)) zero)
    as [Hadd Hnorm]; try exact I;
    try (by repeat (constructor || split)).
  split; [apply Hadd; by compute_done | by apply Hnorm].
Defined.

(** *** The shape of the state along [run] *)

Section Run.

Variable w : world.
Variable minimize :
  (float64 * float64 -> float64) -> float64 * float64 -> float64 * float64.

Lemma store_fit_outcome k gain offset size self self' :
  store_fit k gain offset size self = Ok self' ->
  self' = set_orbit_sizes (<[k := of_nat size]> (orbit_sizes self))
            (set_offsets (<[k := offset]> (offsets self))
               (set_gains (<[k := gain]> (gains self)) self)).
Proof.
  unfold store_fit, setitem. intros Hs.
  destruct (decide (k < length (gains self))%nat); [| done].
  cbn [mbind result_bind] in Hs.
  destruct (decide (k < length (offsets self))%nat); [| done].
  cbn [mbind result_bind] in Hs.
  destruct (decide (k < length (orbit_sizes self))%nat); [| done].
  cbn [mbind result_bind] in Hs. by injection Hs as <-.
Qed.

Lemma fit_orbit_outcome self k self' :
  outcome (fit_orbit w minimize self k) = Ok self' ->
  exists gain offset size,
    self' = set_orbit_sizes (<[k := of_nat size]> (orbit_sizes self))
              (set_offsets (<[k := offset]> (offsets self))
                 (set_gains (<[k := gain]> (gains self)) self)).
Proof.
  unfold fit_orbit, fit_initial_orbit, fit_adjusted_orbit.
  case_decide.
  - rewrite outcome_bind. cbn [outcome lift].
    destruct (zodi_data_masked w k) as [zs |]; [| done].
    rewrite outcome_bind. destruct (outcome _) as [p |]; [| done].
    rewrite outcome_bind. cbn [outcome lift].
    destruct (fit_plots _ _ _ _ _ _) as [[] |]; [| done].
    intros Hs. apply store_fit_outcome in Hs. eauto.
  - rewrite outcome_bind. cbn [outcome lift].
    destruct (zodi_data_masked w k) as [zs |]; [| done].
    rewrite outcome_bind. cbn [outcome lift].
    destruct (orbit_data_adj w self k) as [adj |]; [| done].
    rewrite outcome_bind. destruct (outcome _) as [p |]; [| done].
    rewrite outcome_bind. cbn [outcome lift].
    destruct (fit_plots _ _ _ _ _ _) as [[] |]; [| done].
    intros Hs. apply store_fit_outcome in Hs. eauto.
Qed.

(** Fitting touches the three per-orbit arrays only, entry by entry. *)
Lemma fit_orbits_outcome orbits self self' :
  outcome (fit_orbits w minimize orbits self) = Ok self' ->
  exists g o z,
    self' = set_orbit_sizes z (set_offsets o (set_gains g self)) /\
    length g = length (gains self) /\
    length o = length (offsets self) /\
    length z = length (orbit_sizes self).
Proof.
  revert self. induction orbits as [| j orbits IH]; intros self.
  - cbn. intros [= <-].
    exists (gains self), (offsets self), (orbit_sizes self). by destruct self.
  - cbn [fit_orbits]. rewrite outcome_bind.
    destruct (outcome (fit_orbit w minimize self j)) as [s1 |] eqn:Hj; [| done].
    intros Hrest. apply fit_orbit_outcome in Hj as (gj & oj & zj & ->).
    apply IH in Hrest as (g & o & z & -> & Hg & Ho & Hz).
    cbn in Hg, Ho, Hz. rewrite length_insert in Hg, Ho, Hz.
    by exists g, o, z.
Qed.

Lemma add_files_outcome orbits self self' :
  add_files w orbits self = Ok self' ->
  self' = set_buffers (numerator self') (denominator self') self /\
  length (numerator self') = length (numerator self) /\
  length (denominator self') = length (denominator self) /\
  forall q,
    excluded w q ->
    numerator self' !! q = numerator self !! q /\
    denominator self' !! q = denominator self !! q.
Proof.
  revert self. induction orbits as [| j orbits IH]; intros self.
  - cbn. intros [= <-]. by destruct self.
  - cbn [add_files].
    destruct (gains self !! j) as [g |]; [| done].
    cbn [of_option mbind result_bind].
    destruct (offsets self !! j) as [o |]; [| done].
    cbn [of_option mbind result_bind].
    destruct (add_file w self j g o) as [s1 |] eqn:Hadd; [| done].
    cbn [mbind result_bind]. intros Hrest.
    apply add_file_outcome in Hadd as (Hs1 & Hln & Hld & Hkeep).
    apply IH in Hrest as (Hs' & Hln' & Hld' & Hkeep').
    split; [by rewrite Hs', Hs1 |].
    split; [congruence |]. split; [congruence |].
    intros q Hq. destruct (Hkeep' q Hq) as [-> ->]. apply Hkeep.
    intros Hin. by apply masked_pixel_not_excluded in Hin as [? ?].
Qed.

Lemma normalize_outcome self :
  length (numerator self) = length (denominator self) ->
  exists m u,
    normalize self = Ok (set_maps m u self) /\
    length m = length (denominator self) /\
    length u = length (denominator self) /\
    forall q,
      numerator self !! q = Some zero ->
      denominator self !! q = Some zero ->
      m !! q = Some zero /\ u !! q = Some zero.
Proof.
  intros Hlen. unfold normalize.
  rewrite (divide_out_same (numerator self)), divide_out_scalar by done.
  cbn [mbind result_bind]. eexists _, _. split; [done |].
  split; [rewrite length_zip_with, length_zip; lia |].
  split; [rewrite length_map, length_zip; lia |].
  intros q Hn Hd.
  by rewrite lookup_zip_with, list_lookup_fmap, lookup_zip_with, Hn, Hd.
Qed.

Lemma iteration_maps_shaped num_orbits s m :
  well_shaped w num_orbits s ->
  outcome (iteration_maps w minimize num_orbits s) = Ok m ->
  iter m = iter s /\ fsm_prev m = fsm_prev s /\
  length (gains m) = num_orbits /\
  length (offsets m) = num_orbits /\
  length (orbit_sizes m) = num_orbits /\
  all_gains m = all_gains s ++ [gains m] /\
  all_offsets m = all_offsets s ++ [offsets m] /\
  length (numerator m) = npix w /\
  length (denominator m) = npix w /\
  length (fsm m) = npix w /\
  length (unc_fsm m) = npix w /\
  forall q, excluded w q -> (q < npix w)%nat ->
    numerator m !! q = Some zero /\ denominator m !! q = Some zero /\
    fsm m !! q = Some zero /\ unc_fsm m !! q = Some zero.
Proof.
  intros (Hg & Ho & Hz & Hn & Hd & _ & _ & _ & _ & _ & _ & Hzero & _).
  unfold iteration_maps. rewrite outcome_bind.
  destruct (outcome (fit_orbits w minimize _ s)) as [s1 |] eqn:Hfit; [| done].
  apply fit_orbits_outcome in Hfit as (g & o & z & -> & Hlg & Hlo & Hlz).
  rewrite outcome_bind. cbn [outcome lift].
  destruct (add_files w _ _) as [s2 |] eqn:Hadd; [| done].
  apply add_files_outcome in Hadd as (Hs2 & Hln & Hld & Hkeep).
  cbn in Hs2, Hln, Hld, Hkeep.
  intros Hnorm.
  destruct (normalize_outcome s2) as (mm & uu & Hnorm' & Hlm & Hlu & Hmz);
    [congruence |].
  rewrite Hnorm' in Hnorm. injection Hnorm as <-.
  rewrite Hs2. cbn. rewrite Hs2 in Hlm, Hlu. cbn in Hlm, Hlu.
  repeat (split; [first [done | congruence] |]).
  intros q Hq Hlt. destruct (Hkeep q Hq) as [Hkn Hkd].
  destruct (Hzero q Hq Hlt) as [Hzn Hzd].
  rewrite Hzn in Hkn. rewrite Hzd in Hkd.
  split; [done |]. split; [done |]. by apply Hmz.
Qed.

Lemma iteration_shaped num_orbits s s' :
  well_shaped w num_orbits s ->
  outcome (iteration w minimize num_orbits s) = Ok s' ->
  well_shaped w num_orbits s' /\ iter s' = S (iter s).
Proof.
  intros Hs. unfold iteration. rewrite outcome_bind.
  destruct (outcome (iteration_maps w minimize num_orbits s)) as [m |] eqn:Hm;
    [| done].
  intros [= <-].
  pose proof (iteration_maps_shaped num_orbits s m Hs Hm)
    as (Hi & Hp & Hg & Ho & Hz & Hag & Hao & Hn & Hd & Hf & Hu & Hzero).
  destruct Hs as (_ & _ & _ & _ & _ & Hlag & Hlao & Hfag & Hfao & _).
  split; [| cbn; by rewrite Hi].
  unfold well_shaped. cbn [next_iteration iter fsm_prev gains offsets
    orbit_sizes numerator denominator all_gains all_offsets].
  rewrite Hag, Hao, !length_app, Hi. cbn [length].
  repeat (split; [first [done | lia] |]).
  split; [apply Forall_app; split; [done | by repeat constructor] |].
  split; [apply Forall_app; split; [done | by repeat constructor] |].
  split; [by eauto |].
  split; [by intros ? [= <-] |].
  split.
  - intros q Hq Hlt. by destruct (Hzero q Hq Hlt) as (? & ? & _).
  - intros ? q [= <-] Hq Hlt. by destruct (Hzero q Hq Hlt) as (_ & _ & ? & _).
Qed.

Lemma iterations_from_shaped num_orbits n s s' :
  well_shaped w num_orbits s ->
  outcome (iterations_from w minimize num_orbits n s) = Ok s' ->
  well_shaped w num_orbits s' /\ iter s' = (iter s + n)%nat.
Proof.
  revert s. induction n as [| n IH]; intros s Hs.
  - cbn. intros [= <-]. split; [done | lia].
  - cbn [iterations_from]. rewrite outcome_bind.
    destruct (outcome (iteration w minimize num_orbits s)) as [s1 |] eqn:H1;
      [| done].
    intros Hrest. apply iteration_shaped in H1 as [Hs1 Hi1]; [| done].
    apply IH in Hrest as [Hs' Hi']; [| done].
    split; [done | lia].
Qed.

Lemma run_start_shaped num_orbits :
  well_shaped w num_orbits
    (set_orbit_sizes (Np.zeros num_orbits)
       (set_offsets (Np.zeros num_orbits)
          (set_gains (Np.zeros num_orbits) (init w)))).
Proof.
  unfold well_shaped, Np.zeros. cbn. rewrite !length_replicate.
  repeat split; try done; try lia; try constructor.
  all: unfold Np.zeros; rewrite ?length_replicate; try done.
  all: by rewrite lookup_replicate_2.
Qed.

(** X10: the shape of the state [run] returns.  After [iterations] outer
    iterations over [num_orbits] orbits the iteration counter is
    [iterations], each of the three per-orbit arrays holds [num_orbits]
    entries, the two archives hold one copy of [num_orbits] entries per
    iteration, the two buffers hold one entry per pixel, and after at least
    one iteration the previous map exists and holds one entry per pixel. *)
Theorem run_with_shape num_orbits iterations s :
  outcome (run_with w minimize num_orbits iterations (init w)) = Ok s ->
  iter s = iterations /\
  length (gains s) = num_orbits /\
  length (offsets s) = num_orbits /\
  length (orbit_sizes s) = num_orbits /\
  length (all_gains s) = iterations /\
  length (all_offsets s) = iterations /\
  Forall (fun g => length g = num_orbits) (all_gains s) /\
  Forall (fun o => length o = num_orbits) (all_offsets s) /\
  length (numerator s) = npix w /\
  length (denominator s) = npix w /\
  ((0 < iterations)%nat ->
   exists m, fsm_prev s = Some m /\ length m = npix w).
Proof.
  unfold run_with. intros Hrun.
  apply iterations_from_shaped in Hrun as [Hs Hi];
    [| apply run_start_shaped].
  cbn in Hi.
  destruct Hs as (Hg & Ho & Hz & Hn & Hd & Hlag & Hlao & Hfag & Hfao
                  & Hprev & Hlprev & _).
  rewrite Hi in Hlag, Hlao, Hprev.
  repeat (split; [done |]).
  intros Hpos. destruct (Hprev Hpos) as [m Hm]. exists m.
  split; [done |]. by apply Hlprev.
Qed.

(** X11: masked pixels stay empty.  In every outer iteration of [run] the
    two buffers, the map and the uncertainty map that the iteration saves
    are exactly zero at every excluded pixel. *)
Theorem excluded_pixels_stay_zero num_orbits iterations s m q :
  outcome (run_with w minimize num_orbits iterations (init w)) = Ok s ->
  outcome (iteration_maps w minimize num_orbits s) = Ok m ->
  excluded w q ->
  (q < npix w)%nat ->
  numerator m !! q = Some zero /\ denominator m !! q = Some zero /\
  fsm m !! q = Some zero /\ unc_fsm m !! q = Some zero.
Proof.
  unfold run_with. intros Hrun Hm Hq Hlt.
  apply iterations_from_shaped in Hrun as [Hs _];
    [| apply run_start_shaped].
  pose proof (iteration_maps_shaped num_orbits s m Hs Hm) as Hshape.
  by apply Hshape.
Qed.

End Run.

Lemma run_with_shape_witness :
  iter Demo.ran3 = 1%nat /\
  length (gains Demo.ran3) = 2%nat /\
  length (offsets Demo.ran3) = 2%nat /\
  length (orbit_sizes Demo.ran3) = 2%nat /\
  length (all_gains Demo.ran3) = 1%nat /\
  length (all_offsets Demo.ran3) = 1%nat /\
  Forall (fun g => length g = 2%nat) (all_gains Demo.ran3) /\
  Forall (fun o => length o = 2%nat) (all_offsets Demo.ran3) /\
  length (numerator Demo.ran3) = npix Demo.sky3 /\
  length (denominator Demo.ran3) = npix Demo.sky3 /\
  ((0 < 1)%nat ->
   exists m, fsm_prev Demo.ran3 = Some m /\ length m = npix Demo.sky3).
Proof.
  apply (run_with_shape Demo.sky3 Demo.minimize 2 1 Demo.ran3).
  by compute_done.
Defined.

Lemma excluded_pixels_stay_zero_witness :
  numerator Demo.maps3 !! 1%nat = Some zero /\
  denominator Demo.maps3 !! 1%nat = Some zero /\
  fsm Demo.maps3 !! 1%nat = Some zero /\
  unc_fsm Demo.maps3 !! 1%nat = Some zero.
Proof.
  apply (excluded_pixels_stay_zero Demo.sky3 Demo.minimize 2 1
                                   Demo.ran3 Demo.maps3 1);
    by compute_done.
Defined.

End CoadderMore.

(** ** The weighted moving average *)

Module FilterFacts.

Import Exact Derived Float64Facts FitterFacts CoadderFacts FitterMore Coadder.
Local Open Scope Qc_scope.
Local Open Scope list_scope.

Lemma traverse_length {A B} (f : A -> result B) l r :
  traverse f l = Ok r -> length r = length l.
Proof.
  revert r. induction l as [| a l IH]; intros r Hr.
  - by injection Hr as <-.
  - cbn [traverse] in Hr. destruct (f a) as [b |]; [| done].
    cbn [mbind result_bind] in Hr.
    destruct (traverse f l) as [bs |]; [| done].
    injection Hr as <-. cbn. f_equal. by apply IH.
Qed.

Lemma traverse_first_raises {A B} (f : A -> result B) a l e :
  f a = Raise e -> traverse f (a :: l) = Raise e.
Proof. intros Ha. cbn [traverse]. by rewrite Ha. Qed.

(** X12: a window size below 2 leaves every window empty: on a non-empty
    array [weighted_mean_filter] then fails with the ZeroDivisionError of
    [np.average] ("weights sum to zero"), whatever the weights. *)
Theorem weighted_mean_filter_small_window array weights size :
  (size < 2)%nat ->
  array <> [] ->
  weighted_mean_filter array weights size = Raise ZeroDivisionError.
Proof.
  intros Hsize Harr. unfold weighted_mean_filter.
  assert (Hstep : (size / 2 = 0)%nat) by by apply Nat.div_small.
  rewrite Hstep. destruct array as [| x array]; [done |].
  cbn [length seq]. apply traverse_first_raises.
  unfold Np.slice. cbn. done.
Qed.

Lemma weighted_mean_filter_small_window_witness :
  weighted_mean_filter [one; Fin (Q2Qc 2)] [one; one] 1 =
  Raise ZeroDivisionError.
Proof. apply weighted_mean_filter_small_window; [lia | done]. Defined.

(** X13: whenever [weighted_mean_filter] returns, its output has one
    entry per entry of the input array; so [smooth_fit_params], when it
    returns, hands back one smoothed gain and one smoothed offset per
    stored gain and offset. *)
Theorem smooth_fit_params_lengths self window_size smooth_gains smooth_offsets :
  smooth_fit_params self window_size = Ok (smooth_gains, smooth_offsets) ->
  length smooth_gains = length (gains self) /\
  length smooth_offsets = length (offsets self).
Proof.
  unfold smooth_fit_params, weighted_mean_filter. intros Hs.
  destruct (traverse _ (seq 0 (length (gains self)))) as [sg |] eqn:Hg;
    [| done].
  cbn [mbind result_bind] in Hs.
  destruct (traverse _ (seq 0 (length (offsets self)))) as [so |] eqn:Ho;
    [| done].
  injection Hs as <- <-.
  apply traverse_length in Hg, Ho. by rewrite length_seq in Hg, Ho.
Qed.

Lemma smooth_fit_params_lengths_witness :
  length (arr [1; Q2Qc (3 # 2)]) =
  length (gains (Build 0 [] [] (arr [1; 2]) (arr [Q2Qc 3; Q2Qc 4])
                       (arr [1; 1]) [] [] [] [] None)) /\
  length (arr [Q2Qc 3; Q2Qc (7 # 2)]) =
  length (offsets (Build 0 [] [] (arr [1; 2]) (arr [Q2Qc 3; Q2Qc 4])
                         (arr [1; 1]) [] [] [] [] None)).
Proof. apply (smooth_fit_params_lengths _ 2). by compute_done. Defined.

(** A window of positive weights, normalised as the filter does it. *)

Lemma qsum_pos l : l <> [] -> Forall (fun x => 0 < x) l -> 0 < qsum l.
Proof.
  intros Hl Hpos. destruct Hpos as [| x l Hx Hrest]; [done |].
  cbn [qsum foldr]. fold (qsum l).
  apply Qclt_le_trans with (x + 0).
  - by rewrite Qcplus_0_r.
  - apply Qcplus_le_compat; [apply Qcle_refl |].
    apply qsum_nonneg. eapply Forall_impl; [exact Hrest |].
    intros ? ?. by apply Qclt_le_weak.
Qed.

Lemma Qcdiv_pos (a b : Qc) : 0 < a -> 0 < b -> 0 < a / b.
Proof.
  intros Ha Hb. unfold Qcdiv.
  rewrite <- (Qcmult_0_l (/ b)). apply Qcmult_lt_compat_r; [| done].
  by apply Qcinv_pos.
Qed.

Lemma Qclt_ne_0 (a : Qc) : 0 < a -> a <> 0.
Proof. intros Ha ->. by apply (Qclt_not_le _ _ Ha), Qcle_refl. Qed.

Lemma weighted_sum_bounds lo hi xs ws :
  length xs = length ws ->
  Forall (fun x => lo <= x /\ x <= hi) xs ->
  Forall (fun x => 0 < x) ws ->
  lo * qsum ws <= qsum (zip_with Qcmult xs ws) /\
  qsum (zip_with Qcmult xs ws) <= hi * qsum ws.
Proof.
  intros Hlen Hxs. revert ws Hlen.
  induction Hxs as [| x xs [Hlo Hhi] _ IH]; intros [| wt ws] Hlen Hws;
    try done.
  - cbn. rewrite !Qcmult_0_r. split; apply Qcle_refl.
  - apply Forall_cons in Hws as [Hw Hws].
    destruct (IH ws) as [IHlo IHhi]; [by injection Hlen | done |].
    cbn [zip_with qsum foldr]. fold (qsum ws).
    fold (qsum (zip_with Qcmult xs ws)).
    rewrite !Qcmult_plus_distr_r.
    split; (apply Qcplus_le_compat; [| done]);
      by apply Qcmult_le_compat_r, Qclt_le_weak.
Qed.

Lemma length_arr l : length (arr l) = length l.
Proof. apply length_map. Qed.

Lemma slice_arr lo hi l : Np.slice lo hi (arr l) = arr (Np.slice lo hi l).
Proof. unfold Np.slice, arr. by rewrite <- fmap_drop, <- fmap_take. Qed.

Lemma length_slice {A} lo hi (l : list A) :
  (hi <= length l)%nat -> length (Np.slice lo hi l) = (hi - lo)%nat.
Proof.
  intros Hhi. unfold Np.slice. rewrite length_take, length_drop. lia.
Qed.

Lemma Forall_slice {A} (P : A -> Prop) lo hi l :
  Forall P l -> Forall P (Np.slice lo hi l).
Proof. intros Hl. unfold Np.slice. by apply Forall_take, Forall_drop. Qed.

Section Window.

Context (xs ws : list Qc) (size : nat).
Hypothesis Hsize : (2 <= size)%nat.
Hypothesis Hlen : length ws = length xs.
Hypothesis Hpos : Forall (fun x => 0 < x) ws.

Lemma step_pos : (1 <= (size / 2))%nat.
Proof using Hsize.
  change 1%nat with (2 / 2)%nat. by apply Nat.Div0.div_le_mono.
Qed.

Lemma normalised_window p :
  (p < length xs)%nat ->
  let lo := (p - (size / 2))%nat in
  let hi := (length xs `min` (p + (size / 2)))%nat in
  let ww := Np.slice lo hi ws in
  let nw := map (fun x => x / qsum ww) ww in
  length (Np.slice lo hi xs) = length nw /\
  nw <> [] /\ Forall (fun x => 0 < x) nw /\
  map (fun x => fdiv x (Np.sum (arr ww))) (arr ww) = arr nw.
Proof using Hsize Hlen Hpos.
  intros Hp lo hi ww nw. pose proof step_pos as Hstep.
  assert (Hk : length ww = (hi - lo)%nat)
    by (apply length_slice; rewrite Hlen; unfold hi; lia).
  assert (Hww : ww <> []).
  { intros Hnil. rewrite Hnil in Hk. cbn in Hk. unfold hi, lo in Hk. lia. }
  assert (Hwpos : Forall (fun x => 0 < x) ww) by by apply Forall_slice.
  pose proof (qsum_pos ww Hww Hwpos) as HS.
  repeat split.
  - unfold nw. rewrite length_map, Hk. apply length_slice. unfold hi. lia.
  - unfold nw. intros Hnil. apply Hww. by destruct ww.
  - unfold nw. apply Forall_map. eapply Forall_impl; [exact Hwpos |].
    intros x Hx. cbn. by apply Qcdiv_pos.
  - rewrite sum_arr. apply map_arr. intros a. apply fdiv_fin.
    by apply Qclt_ne_0.
Qed.

Lemma window_average p :
  (p < length xs)%nat ->
  let lo := (p - (size / 2))%nat in
  let hi := (length (arr xs) `min` (p + (size / 2)))%nat in
  let window := Np.slice lo hi (arr xs) in
  let weights_window := Np.slice lo hi (arr ws) in
  Np.average window
    (map (fun x => fdiv x (Np.sum weights_window)) weights_window) =
  Ok (Fin (window_mean xs ws (size / 2) p)).
Proof using Hsize Hlen Hpos.
  intros Hp. cbn zeta.
  rewrite length_arr.
  destruct (normalised_window p Hp) as (Hl & Hne & Hnpos & Hmap).
  cbn zeta in Hl, Hne, Hnpos, Hmap.
  rewrite !slice_arr, Hmap. unfold Np.average.
  rewrite decide_True by by rewrite !length_arr.
  rewrite sum_arr.
  pose proof (qsum_pos _ Hne Hnpos) as HT.
  assert (Hfeq : feq (Fin (qsum (map
            (fun x => x / qsum (Np.slice (p - (size / 2))
                                  (length xs `min` (p + (size / 2))) ws))
            (Np.slice (p - (size / 2)) (length xs `min` (p + (size / 2))) ws))))
          zero = false).
  { unfold feq. rewrite fne_zero_fin, bool_decide_eq_true_2; [done |].
    by apply Qclt_ne_0. }
  rewrite Hfeq.
  rewrite (zip_with_arr fmul Qcmult) by done.
  rewrite sum_arr, fdiv_fin by by apply Qclt_ne_0.
  done.
Qed.

Lemma window_mean_bounds lo hi p :
  (p < length xs)%nat ->
  Forall (fun x => lo <= x /\ x <= hi) xs ->
  lo <= window_mean xs ws (size / 2) p /\ window_mean xs ws (size / 2) p <= hi.
Proof using Hsize Hlen Hpos.
  intros Hp Hxs.
  destruct (normalised_window p Hp) as (Hl & Hne & Hnpos & _).
  cbn zeta in Hl, Hne, Hnpos.
  pose proof (qsum_pos _ Hne Hnpos) as HT.
  destruct (weighted_sum_bounds lo hi _ _ Hl
              (Forall_slice _ (p - (size / 2)) (length xs `min` (p + (size / 2))) _ Hxs)
              Hnpos) as [Hlo Hhi].
  unfold window_mean. cbn zeta.
  match type of HT with _ < ?T' => set (T := T') in * end.
  match type of Hlo with _ <= ?q' => set (q := q') in * end.
  assert (Hq : q / T * T = q) by (field; by apply Qclt_ne_0).
  split; apply (Qcmult_lt_0_le_reg_r _ _ T HT); by rewrite Hq.
Qed.

End Window.

(** X14: the filter never overshoots.  With a window size of at least 2,
    finite positive weights and as many weights as entries, the filter
    returns on every finite array, and (in exact arithmetic) every
    smoothed entry lies between any two bounds that enclose all entries of
    the input. *)
Theorem weighted_mean_filter_bounds (xs ws : list Qc) (size : nat) (lo hi : Qc) :
  (2 <= size)%nat ->
  length ws = length xs ->
  Forall (fun x => 0 < x) ws ->
  Forall (fun x => lo <= x /\ x <= hi) xs ->
  exists ys,
    weighted_mean_filter (arr xs) (arr ws) size = Ok (arr ys) /\
    length ys = length xs /\
    Forall (fun y => lo <= y /\ y <= hi) ys.
Proof.
  intros Hsize Hlen Hpos Hxs.
  exists (map (window_mean xs ws (size / 2)) (seq 0 (length xs))).
  split; [| split].
  - unfold weighted_mean_filter.
    rewrite (traverse_ok _ (fun p => Fin (window_mean xs ws (size / 2) p))).
    + unfold arr at 1. rewrite length_map. unfold arr.
      by rewrite <- list_fmap_compose.
    + apply Forall_forall. intros p Hp.
      apply elem_of_seq in Hp. unfold arr at 1 in Hp.
      rewrite length_map in Hp.
      apply (window_average xs ws size Hsize Hlen Hpos p). lia.
  - by rewrite length_map, length_seq.
  - apply Forall_map, Forall_forall. intros p Hp. apply elem_of_seq in Hp.
    apply (window_mean_bounds xs ws size Hsize Hlen Hpos lo hi p); [lia | done].
Qed.

Lemma weighted_mean_filter_bounds_witness :
  exists ys,
    weighted_mean_filter (arr [1; Q2Qc 4; 2]) (arr [1; 1; 2]) 2 = Ok (arr ys) /\
    length ys = 3%nat /\
    Forall (fun y => 1 <= y /\ y <= Q2Qc 4) ys.
Proof.
  apply (weighted_mean_filter_bounds [1; Q2Qc 4; 2] [1; 1; 2] 2 1 (Q2Qc 4));
    [lia | done | |].
  - repeat constructor.
  - repeat constructor; by compute_done.
Defined.

(** X15: a constant array is a fixed point of the filter: with a window
    size of at least 2 and finite positive weights, one per entry, the
    filter returns the array it was given (in exact arithmetic). *)
Theorem weighted_mean_filter_constant (c : Qc) (ws : list Qc) (size : nat) :
  (2 <= size)%nat ->
  Forall (fun x => 0 < x) ws ->
  weighted_mean_filter (replicate (length ws) (Fin c)) (arr ws) size =
  Ok (replicate (length ws) (Fin c)).
Proof.
  intros Hsize Hpos.
  set (xs := replicate (length ws) c).
  assert (Hlen : length ws = length xs) by (unfold xs; by rewrite length_replicate).
  assert (Harr : replicate (length ws) (Fin c) = arr xs)
    by (unfold xs, arr; by rewrite fmap_replicate).
  rewrite Harr. unfold weighted_mean_filter.
  rewrite (traverse_ok _ (fun p => Fin (window_mean xs ws (size / 2) p))).
  - f_equal. unfold arr at 1. rewrite length_map, <- Harr.
    apply list_eq. intros i. rewrite list_lookup_fmap.
    destruct (decide (i < length xs)%nat) as [Hi | Hi].
    + rewrite lookup_seq_lt by done. cbn.
      rewrite lookup_replicate_2 by lia. do 2 f_equal.
      assert (Hc : Forall (fun x => c <= x /\ x <= c) xs).
      { unfold xs. apply Forall_replicate. split; apply Qcle_refl. }
      destruct (window_mean_bounds xs ws size Hsize Hlen Hpos c c i Hi Hc).
      by apply Qcle_antisym.
    + rewrite lookup_seq_ge by lia. cbn. symmetry.
      apply lookup_replicate_None. lia.
  - apply Forall_forall. intros p Hp.
    apply elem_of_seq in Hp. unfold arr at 1 in Hp.
    rewrite length_map in Hp.
    apply (window_average xs ws size Hsize Hlen Hpos p). lia.
Qed.

Lemma weighted_mean_filter_constant_witness :
  weighted_mean_filter (replicate 3 (Fin (Q2Qc 7))) (arr [1; 1; 2]) 2 =
  Ok (replicate 3 (Fin (Q2Qc 7))).
Proof.
  apply (weighted_mean_filter_constant (Q2Qc 7) [1; 1; 2] 2); [lia |].
  repeat constructor.
Defined.

End FilterFacts.

(** ** More on the spline stage *)

Module SplineMore.

Import SplineFitter SplineFacts.
Local Open Scope R_scope.

Lemma length_outlier_mask a : length (outlier_mask a) = length a.
Proof. unfold outlier_mask, zscore. by rewrite !length_map. Qed.

Lemma select_not_mismatch {A} mask (l : list A) :
  length mask <> length l -> select_not mask l = Raise IndexError.
Proof. intros Hne. unfold select_not. by rewrite decide_False. Qed.

Lemma select_not_inr {A} mask (l : list A) :
  length mask = length l -> exists r, select_not mask l = Ok r.
Proof. intros Heq. unfold select_not. rewrite decide_True by done. eauto. Qed.

(** X16: [_clean_data] needs one gain, one offset and one array of
    timestamps per orbit: when the three counts are not all equal it fails
    with the IndexError of a boolean index of the wrong length. *)
Theorem clean_data_length_mismatch all_gains all_offsets all_mjd_vals :
  length all_mjd_vals <> length all_gains \/
  length all_mjd_vals <> length all_offsets ->
  _clean_data all_gains all_offsets all_mjd_vals = Raise IndexError.
Proof.
  intros Hne. unfold _clean_data.
  destruct (decide (length all_mjd_vals = length all_gains)) as [Hg | Hg].
  - destruct Hne as [Hne | Hne]; [done |].
    destruct (select_not_inr (outlier_mask all_gains)
                (map median all_mjd_vals)) as [r1 ->];
      [by rewrite length_outlier_mask, length_map |].
    destruct (select_not_inr (outlier_mask all_gains) all_gains) as [r2 ->];
      [by rewrite length_outlier_mask |].
    cbn [mbind result_bind].
    rewrite (select_not_mismatch (outlier_mask all_offsets)
               (map median all_mjd_vals)); [reflexivity |].
    rewrite length_outlier_mask, length_map. congruence.
  - rewrite (select_not_mismatch (outlier_mask all_gains)
               (map median all_mjd_vals)); [reflexivity |].
    rewrite length_outlier_mask, length_map. congruence.
Qed.

Lemma clean_data_length_mismatch_witness :
  _clean_data [1; 2] [1; 2] [[1]] = Raise IndexError.
Proof. apply clean_data_length_mismatch. left. cbn. lia. Defined.

(** *** Values and times stay in step *)

Lemma select_not_aligned {A B} mask (l1 : list A) (l2 : list B) r1 r2 :
  select_not mask l1 = Ok r1 ->
  select_not mask l2 = Ok r2 ->
  length r1 = length r2.
Proof.
  unfold select_not.
  destruct (decide (length mask = length l1)) as [H1 |]; [| done].
  destruct (decide (length mask = length l2)) as [H2 |]; [| done].
  intros [= <-] [= <-]. revert l1 l2 H1 H2.
  induction mask as [| b mask IH]; intros [| x l1] [| y l2] H1 H2; try done.
  cbn [zip zip_with]. 
  change (omap ?f (?a :: ?l)) with
    (match f a with Some z => z :: omap f l | None => omap f l end).
  cbn [fst snd]. destruct b; cbn [length]; [| f_equal]; apply IH; by simplify_eq/=.
Qed.

Lemma select_not_sublist {A} mask (l : list A) r :
  select_not mask l = Ok r -> r `sublist_of` l.
Proof.
  unfold select_not. case_decide as Hlen; [| done]. intros [= <-].
  revert l Hlen. induction mask as [| b mask IH]; intros [| x l] Hlen;
    try done.
  cbn [zip zip_with].
  change (omap ?f (?a :: ?t)) with
    (match f a with Some z => z :: omap f t | None => omap f t end).
  cbn [fst snd].
  destruct b; [apply sublist_cons | apply sublist_skip]; apply IH;
    by simplify_eq/=.
Qed.

(** X17: cleaning keeps values and times in step.  With one gain, one
    offset and one array of timestamps per orbit [_clean_data] returns;
    there are exactly as many cleaned gain times as cleaned gains and as
    many cleaned offset times as cleaned offsets, and the cleaned gains and
    offsets are the input sequences with some entries left out, in their
    order.  (How many entries survive is not bounded from below: on
    binary64 numbers every z-score can exceed 1 by a rounding error.) *)
Theorem clean_data_aligned all_gains all_offsets all_mjd_vals :
  length all_mjd_vals = length all_gains ->
  length all_offsets = length all_gains ->
  exists times_gain_masked times_offset_masked gains_masked offsets_masked,
    _clean_data all_gains all_offsets all_mjd_vals =
    Ok (times_gain_masked, times_offset_masked, gains_masked, offsets_masked) /\
    length times_gain_masked = length gains_masked /\
    length times_offset_masked = length offsets_masked /\
    gains_masked `sublist_of` all_gains /\
    offsets_masked `sublist_of` all_offsets.
Proof.
  intros Hm Ho.
  destruct (select_not_inr (outlier_mask all_gains) all_gains)
    as [gm Hgm]; [by rewrite length_outlier_mask |].
  destruct (select_not_inr (outlier_mask all_offsets) all_offsets)
    as [om Hom]; [by rewrite length_outlier_mask |].
  destruct (select_not_inr (outlier_mask all_gains) (map median all_mjd_vals))
    as [tg Htg]; [by rewrite length_outlier_mask, length_map |].
  destruct (select_not_inr (outlier_mask all_offsets) (map median all_mjd_vals))
    as [to Hto]; [rewrite length_outlier_mask, length_map; congruence |].
  exists tg, to, gm, om. unfold _clean_data.
  rewrite Htg, Hgm, Hto, Hom. cbn [mbind result_bind].
  split; [done |].
  split; [by apply (select_not_aligned _ _ _ _ _ Htg Hgm) |].
  split; [by apply (select_not_aligned _ _ _ _ _ Hto Hom) |].
  split; by eapply select_not_sublist.
Qed.

Lemma clean_data_aligned_witness :
  exists times_gain_masked times_offset_masked gains_masked offsets_masked,
    _clean_data [1; 2] [3; 3] [[1]; []] =
    Ok (times_gain_masked, times_offset_masked, gains_masked, offsets_masked) /\
    length times_gain_masked = length gains_masked /\
    length times_offset_masked = length offsets_masked /\
    gains_masked `sublist_of` [1; 2] /\
    offsets_masked `sublist_of` [3; 3].
Proof. by apply clean_data_aligned. Defined.

(** *** Constant sequences *)

Lemma sum_replicate n c : sum (replicate n c) = INR n * c.
Proof.
  induction n as [| n IH]; [cbn; unfold sum; cbn; lra |].
  cbn [replicate]. rewrite sum_cons, IH, S_INR. lra.
Qed.

Lemma std_replicate n c : std (replicate n c) = 0.
Proof.
  unfold std.
  assert (Hdev : map (fun x => (x - mean (replicate n c)) *
                               (x - mean (replicate n c))) (replicate n c) =
                 replicate n 0).
  { destruct n as [| n]; [done |].
    assert (Hmean : mean (replicate (S n) c) = c).
    { unfold mean. rewrite sum_replicate, length_replicate.
      field. apply not_0_INR. lia. }
    rewrite Hmean, fmap_replicate. f_equal. lra. }
  rewrite Hdev. unfold mean. rewrite sum_replicate.
  replace (INR n * 0 / INR (length (replicate n 0))) with 0
    by (unfold Rdiv; ring).
  apply sqrt_0.
Qed.

Lemma select_not_all_false {A} (l : list A) :
  select_not (replicate (length l) false) l = Ok l.
Proof.
  unfold select_not. rewrite decide_True by by rewrite length_replicate.
  f_equal. induction l as [| x l IH]; [done |]. cbn. by f_equal.
Qed.

(** X18: orbits that all fitted the same gain are all kept.  The z-score
    of a constant array is nan ([0 / 0]), no nan compares greater than 1,
    so [_clean_data] hands back every gain and every median time; the
    same holds for the offsets. *)
Theorem clean_data_constant_kept (c d : R) all_mjd_vals :
  let n := length all_mjd_vals in
  _clean_data (replicate n c) (replicate n d) all_mjd_vals =
  Ok (map median all_mjd_vals, map median all_mjd_vals,
      replicate n c, replicate n d).
Proof.
  intros n. unfold _clean_data.
  assert (Hmask : forall e, outlier_mask (replicate n e) = replicate n false).
  { intros e. unfold outlier_mask, zscore. rewrite <- list_fmap_compose.
    rewrite (map_all_false _ (replicate n e)).
    - by rewrite length_replicate.
    - apply Forall_replicate. cbn.
      by rewrite decide_True by apply std_replicate. }
  rewrite !Hmask.
  assert (Ht : select_not (replicate n false) (map median all_mjd_vals) =
               Ok (map median all_mjd_vals)).
  { replace n with (length (map median all_mjd_vals))
      by (unfold n; by rewrite length_map).
    apply select_not_all_false. }
  assert (Hc : forall e : R, select_not (replicate n false) (replicate n e) =
                             Ok (replicate n e)).
  { intros e. rewrite <- (length_replicate n e) at 1.
    apply select_not_all_false. }
  by rewrite Ht, !Hc.
Qed.

(** *** The moon-stripe masks *)

Lemma in_stripes_Some stripes v :
  in_stripes stripes (Some v) = true <->
  exists lo hi, (lo, hi) ∈ stripes /\ lo < v /\ v < hi.
Proof.
  cbn [in_stripes]. rewrite existsb_exists. split.
  - intros ([lo hi] & Hin & Hb). apply andb_prop in Hb as [H1 H2].
    apply bool_decide_eq_true in H1, H2.
    exists lo, hi. by rewrite list_elem_of_In.
  - intros (lo & hi & Hin & H1 & H2). exists (lo, hi).
    rewrite <- list_elem_of_In. split; [done |].
    cbn. by rewrite !bool_decide_eq_true_2.
Qed.

Lemma in_stripes_widen s1 s2 t :
  Forall2 (fun a b : R * R => b.1 <= a.1 /\ a.2 <= b.2) s1 s2 ->
  in_stripes s1 t = true -> in_stripes s2 t = true.
Proof.
  intros Hs. destruct t as [v |]; [| done].
  rewrite !in_stripes_Some. intros (lo & hi & Hin & H1 & H2).
  apply list_elem_of_lookup in Hin as [i Hi].
  destruct (Forall2_lookup_l _ _ _ _ _ Hs Hi) as ([lo' hi'] & Hi' & Hle1 & Hle2).
  exists lo', hi'. cbn in Hle1, Hle2.
  split; [by eapply list_elem_of_lookup_2 | lra].
Qed.

Lemma in_stripes_range lo0 hi0 stripes v :
  Forall (fun a : R * R => lo0 <= a.1 /\ a.2 <= hi0) stripes ->
  in_stripes stripes (Some v) = true -> lo0 < v < hi0.
Proof.
  intros Hs. rewrite in_stripes_Some. intros (lo & hi & Hin & H1 & H2).
  rewrite Forall_forall in Hs. destruct (Hs _ Hin) as [Hlo Hhi].
  cbn in Hlo, Hhi. lra.
Qed.

(** X19: the moon-stripe masks of [fit_spline].  A median time that is
    masked for the gains is masked for the offsets too; only times strictly
    between MJD 55200 and 55414 are ever masked; and a nan median time (an
    orbit without timestamps) is masked by neither. *)
Theorem stripe_masks (t : option R) :
  (in_stripes gain_stripes t = true -> in_stripes offset_stripes t = true) /\
  (forall v, t = Some v -> in_stripes offset_stripes t = true ->
             55200 < v < 55414) /\
  (t = None ->
   in_stripes gain_stripes t = false /\ in_stripes offset_stripes t = false).
Proof.
  split; [| split].
  - apply in_stripes_widen. unfold gain_stripes, offset_stripes.
    repeat (constructor; [cbn [fst snd]; lra |]). constructor.
  - intros v -> Hv. revert Hv. apply in_stripes_range.
    unfold offset_stripes.
    repeat (constructor; [cbn [fst snd]; lra |]). constructor.
  - by intros ->.
Qed.

Lemma stripe_masks_witness :
  in_stripes gain_stripes (Some 55410) = true /\
  in_stripes offset_stripes (Some 55410) = true /\
  55200 < 55410 < 55414 /\
  in_stripes gain_stripes None = false.
Proof.
  assert (Hg : in_stripes gain_stripes (Some 55410) = true).
  { apply in_stripes_Some. exists 55408, 55414.
    split; [| lra]. unfold gain_stripes.
    do 14 apply list_elem_of_further. apply list_elem_of_here. }
  destruct (stripe_masks (Some 55410)) as (Hincl & Hrange & _).
  destruct (stripe_masks None) as (_ & _ & Hnan).
  split; [done |]. split; [by apply Hincl |].
  split; [apply Hrange; [done | by apply Hincl] |].
  by apply Hnan.
Defined.

End SplineMore.
